(** * scanpy.tools._louvain: the [louvain] clustering wrapper

    A shallow embedding of [src/scanpy/tools/_louvain.py].  The function
    validates its arguments, optionally restricts the adjacency matrix to
    the samples of some categories, hands the graph to one of three
    community-detection libraries and writes the cluster labels back into
    the annotated-data container.

    The container is a mutable Python object shared with the caller, the
    wrapper logs through [scanpy.logging] and raises exceptions: the
    embedding is a small monad that threads the caller's container,
    collects the emitted events and stops at the first exception.

    The first part holds the definitions: the data model, the operations
    of numpy, scipy, pandas and natsort that the wrapper calls, the wrapper
    itself, and the notions the properties are stated with.  The second
    part holds the proofs. *)

From Stdlib Require Import ZArith QArith Ascii String.
From stdpp Require Import base option list sorting gmap strings pretty.

Local Open Scope string_scope.
Local Open Scope list_scope.

(** ** Python values that label categories

    Category labels are strings in the intended use; integers are what
    the first validation error warns against (['1'] instead of [1]). *)

Inductive pyval : Type :=
  | PStr (s : string)
  | PInt (z : Z).

#[global] Instance pyval_eq_dec : EqDecision pyval.
Proof. solve_decision. Defined.

(** [isinstance(v, str)] *)
Definition isinstance_str (v : pyval) : bool :=
  match v with
  | PStr _ => true
  | PInt _ => false
  end.

(** [.astype('U')] on one element: strings stay, integers are printed
    in decimal. *)
Definition astype_U (v : pyval) : string :=
  match v with
  | PStr s => s
  | PInt z => pretty z
  end.

(** ** The annotated-data container *)

(** A [pandas.Categorical] column: the values, one per sample, and the
    ordered list of categories.  Every column of [adata.obs] is taken to be
    categorical and without missing values. *)
Record Categorical : Type := mkCategorical {
  cat_values : list pyval;
  cat_categories : list pyval
}.

(** A sparse matrix seen through the two operations the wrapper uses:
    its shape and boolean-mask slicing of rows and of columns. *)
Record spmatrix : Type := mkSp {
  sp_shape : nat * nat;
  sp_rows : list (list Q)
}.

(** Entries of the sub-dictionaries of [adata.uns] that the wrapper reads
    or writes: a matrix ([uns['neighbors']['connectivities']]) and the
    parameter record ([uns['louvain']['params']]). *)
Inductive uns_value : Type :=
  | UnsMatrix (m : spmatrix)
  | UnsParams (resolution : option Q) (random_state : Z).

Record AnnData : Type := mkAnnData {
  n_obs : nat;
  obs : gmap string Categorical;
  uns : gmap string (gmap string uns_value)
}.

Definition set_obs (f : gmap string Categorical -> gmap string Categorical) (ad : AnnData) : AnnData :=
  {| n_obs := n_obs ad; obs := f (obs ad); uns := uns ad |}.

Definition set_uns (f : gmap string (gmap string uns_value) -> gmap string (gmap string uns_value))
    (ad : AnnData) : AnnData :=
  {| n_obs := n_obs ad; obs := obs ad; uns := f (uns ad) |}.

(** ** Exceptions and logged events *)

(** The messages of the [ValueError]s.  The first five are raised by the
    wrapper itself (lines 90, 94, 101, 105, 151); [LengthMismatch] stands
    for pandas refusing an assignment whose length does not fit. *)
Inductive error_message : Type :=
  | PartitionTypeNeedsVtraag
  | NeedNeighbors
  | UseStringsForCategories
  | NotAValidCategory (c : pyval) (restrict_key : string)
  | FlavorNeedsToBe
  | LengthMismatch.

Inductive exn : Type :=
  | ValueError (msg : error_message)
  | IndexError
  | KeyError (key : string)
  | TypeError
  | BackendError (what : string).

(** The partition classes of the [louvain] package. *)
Inductive vertex_partition : Type :=
  | RBConfigurationVertexPartition
  | OtherVertexPartition (name : string).

(** Values of the keyword arguments handed to [louvain.find_partition]. *)
Inductive kwarg : Type :=
  | KwFloat (q : Q)
  | KwArray (l : list Q)
  | KwOther (repr : string).

(** Modelled from the spec: [utils.get_igraph_from_adjacency] is not
    under src/; the spec says it builds a directed-or-undirected graph view
    from the adjacency matrix, so a graph is the matrix with the flag. *)
Record igraph : Type := mkIgraph {
  ig_adjacency : spmatrix;
  ig_directed : bool
}.

Definition get_igraph_from_adjacency (adjacency : spmatrix) (directed : bool) : igraph :=
  {| ig_adjacency := adjacency; ig_directed := directed |}.

(** [nx.Graph(adjacency)] *)
Inductive nx_graph : Type :=
  | NxGraph (adjacency : spmatrix).

Inductive log_message : Type :=
  | MsgRunning
  | MsgResolutionNoEffect
  | MsgUndirected
  | MsgUsingLouvainPackage
  | MsgFinished
  | MsgFound (n_clusters : nat) (key_added : string).

(** What the wrapper does to the outside world besides the container:
    log lines and calls into the clustering libraries. *)
Inductive event : Type :=
  | LogInfo (m : log_message)
  | LogWarn (m : log_message)
  | LogM (m : log_message)
  | LogHint (m : log_message)
  | SetRngSeed (seed : Z)
  | FindPartition (g : igraph) (pt : vertex_partition) (kwargs : gmap string kwarg)
  | CommunityMultilevel (g : igraph) (weights : option (list Q))
  | BestPartition (g : nx_graph).

Definition is_resolution_warning (e : event) : bool :=
  match e with
  | LogWarn MsgResolutionNoEffect => true
  | _ => false
  end.

(** ** The clustering libraries

    The three backends are external; the wrapper only needs a membership
    vector from them.  A backend may fail with an exception of its own,
    which the wrapper does not catch: [inl what] stands for it. *)
Class Backends : Type := {
  (** [g.es["weight"]] *)
  es_weight : igraph -> list Q;
  (** [louvain.find_partition(g, partition_type, **kwargs).membership],
      after [louvain.set_rng_seed(seed)] *)
  find_partition : Z -> igraph -> vertex_partition -> gmap string kwarg -> string + list Z;
  (** [g.community_multilevel(weights=weights).membership] *)
  community_multilevel : igraph -> option (list Q) -> string + list Z;
  (** [community.best_partition(g)], a dict from node to community *)
  best_partition : nx_graph -> string + gmap nat Z
}.

(** ** The monad: caller's container, events, exceptions *)

Definition M (A : Type) : Type := AnnData -> AnnData * list event * (exn + A).

Definition ret {A} (x : A) : M A := fun c => (c, [], inr x).

Definition bind {A B} (m : M A) (f : A -> M B) : M B :=
  fun c =>
    match m c with
    | (c1, ev1, inl e) => (c1, ev1, inl e)
    | (c1, ev1, inr x) =>
        match f x c1 with
        | (c2, ev2, r) => (c2, ev1 ++ ev2, r)
        end
    end.

Definition raise {A} (e : exn) : M A := fun c => (c, [], inl e).

Definition emit (e : event) : M unit := fun c => (c, [e], inr tt).

Definition lift {A} (r : exn + A) : M A := fun c => (c, [], r).

(** The result of a call into a clustering library. *)
Definition call {A} (r : string + A) : M A :=
  match r with
  | inl what => raise (BackendError what)
  | inr x => ret x
  end.

(** Read, or update, the caller's container. *)
Definition get_caller : M AnnData := fun c => (c, [], inr c).

Definition modify_caller (f : AnnData -> AnnData) : M unit := fun c => (f c, [], inr tt).

Notation "x <- m ;; k" := (bind m (fun x => k))
  (at level 100, m at next level, right associativity).

Notation "m ;;; k" := (bind m (fun _ => k))
  (at level 100, right associativity).

(** [if cond: raise e] *)
Definition raise_if (cond : bool) (e : exn) : M unit :=
  if cond then raise e else ret tt.

(** [if cond: m] *)
Definition when (cond : bool) (m : M unit) : M unit :=
  if cond then m else ret tt.

(** The local variable [adata] after line 92: either the caller's object
    itself, or the private object made by [adata.copy()]. *)
Inductive local_adata : Type :=
  | Alias
  | Owned (ad : AnnData).

Definition deref (adata : local_adata) : M AnnData :=
  match adata with
  | Alias => get_caller
  | Owned ad => ret ad
  end.

Definition update (adata : local_adata) (f : AnnData -> AnnData) : M local_adata :=
  match adata with
  | Alias => modify_caller f ;;; ret Alias
  | Owned ad => ret (Owned (f ad))
  end.

(** ** numpy, scipy and pandas operations used by the wrapper *)

(** Selection by a boolean mask, [a[mask]]. *)
Fixpoint mask_select {A} (mask : list bool) (l : list A) : list A :=
  match mask, l with
  | b :: mask', x :: l' =>
      if b then x :: mask_select mask' l' else mask_select mask' l'
  | _, _ => []
  end.

Fixpoint count_true (mask : list bool) : nat :=
  match mask with
  | [] => 0
  | b :: mask' => if b then S (count_true mask') else count_true mask'
  end.

(** [adjacency[mask, :]]; a mask that does not fit the axis is refused. *)
Definition getitem_rows (m : spmatrix) (mask : list bool) : exn + spmatrix :=
  if decide (length mask = fst (sp_shape m))
  then inr {| sp_shape := (count_true mask, snd (sp_shape m));
              sp_rows := mask_select mask (sp_rows m) |}
  else inl IndexError.

(** [adjacency[:, mask]] *)
Definition getitem_cols (m : spmatrix) (mask : list bool) : exn + spmatrix :=
  if decide (length mask = snd (sp_shape m))
  then inr {| sp_shape := (fst (sp_shape m), count_true mask);
              sp_rows := map (mask_select mask) (sp_rows m) |}
  else inl IndexError.

(** [series.isin(values).values] *)
Definition isin (column : list pyval) (values : list pyval) : list bool :=
  map (fun v => bool_decide (v ∈ values)) column.

(** [np.unique(groups)]: the distinct ids in increasing order. *)
Definition np_unique (groups : list Z) : list Z :=
  merge_sort Z.le (remove_dups groups).

(** [series.unique()]: the distinct values in order of first appearance. *)
Fixpoint pd_unique (l : list string) : list string :=
  match l with
  | [] => []
  | x :: l' => x :: filter (fun y => y <> x) (pd_unique l')
  end.

(** The positions selected by [mask] take the items of [new] in order,
    the others keep the item of [old]. *)
Fixpoint iloc_assign (mask : list bool) (old new : list string) : list string :=
  match mask, old with
  | b :: mask', x :: old' =>
      if b then
        match new with
        | y :: new' => y :: iloc_assign mask' old' new'
        | [] => x :: iloc_assign mask' old' []
        end
      else x :: iloc_assign mask' old' new
  | _, _ => old
  end.

(** [series.iloc[mask] = new]; pandas refuses a list whose length is not
    the number of selected positions. *)
Definition iloc_setitem (mask : list bool) (old new : list string) : exn + list string :=
  if decide (length new = count_true mask)
  then inr (iloc_assign mask old new)
  else inl (ValueError LengthMismatch).

(** [sep.join(items)]: a [TypeError] unless every item is a string. *)
Fixpoint str_join (sep : string) (items : list pyval) : exn + string :=
  match items with
  | [] => inr ""
  | PInt _ :: _ => inl TypeError
  | PStr s :: rest =>
      match rest with
      | [] => inr s
      | _ :: _ =>
          match str_join sep rest with
          | inr r => inr (s +:+ sep +:+ r)
          | inl e => inl e
          end
      end
  end.

(** [seq[0]] *)
Definition getitem0 {A} (l : list A) : exn + A :=
  match l with
  | [] => inl IndexError
  | x :: _ => inr x
  end.

(** [d[key]] on a dict *)
Definition getitem {V} (d : gmap string V) (key : string) : exn + V :=
  match d !! key with
  | Some v => inr v
  | None => inl (KeyError key)
  end.

(** ** Natural sort

    [natsort.natsorted] with its default key: a string is cut into runs
    of ASCII digits and runs of other characters; digit runs compare as
    numbers, the others as strings.  The key always starts with a text
    chunk (the empty one when the string starts with a digit), so chunks
    of the two kinds never meet at the same position. *)

Inductive chunk : Type :=
  | CText (s : string)
  | CNum (n : N).

Definition is_digit (c : ascii) : bool :=
  ((48 <=? N_of_ascii c) && (N_of_ascii c <=? 57))%N.

Definition digit_value (c : ascii) : N := (N_of_ascii c - 48)%N.

Fixpoint natsort_chunks (s : string) (cur : chunk) : list chunk :=
  match s with
  | EmptyString =>
      match cur with
      | CText EmptyString => []
      | _ => [cur]
      end
  | String c s' =>
      match cur with
      | CNum n =>
          if is_digit c
          then natsort_chunks s' (CNum (10 * n + digit_value c)%N)
          else cur :: natsort_chunks s' (CText (String c EmptyString))
      | CText t =>
          if is_digit c
          then cur :: natsort_chunks s' (CNum (digit_value c))
          else natsort_chunks s' (CText (t +:+ String c EmptyString))
      end
  end.

Definition natsort_key (s : string) : list chunk := natsort_chunks s (CText "").

Definition chunk_compare (a b : chunk) : comparison :=
  match a, b with
  | CText s, CText t => String.compare s t
  | CNum m, CNum n => N.compare m n
  | CText _, CNum _ => Lt
  | CNum _, CText _ => Gt
  end.

(** Python's ordering of tuples: the first position that differs decides,
    a proper prefix comes first. *)
Fixpoint key_compare (k1 k2 : list chunk) : comparison :=
  match k1, k2 with
  | [], [] => Eq
  | [], _ :: _ => Lt
  | _ :: _, [] => Gt
  | a :: k1', b :: k2' =>
      match chunk_compare a b with
      | Eq => key_compare k1' k2'
      | c => c
      end
  end.

Definition natural_leb (s t : string) : bool :=
  match key_compare (natsort_key s) (natsort_key t) with
  | Gt => false
  | _ => true
  end.

(** [sorted] is stable: an item goes before the first item that is not
    smaller, and items are inserted from the last to the first. *)
Fixpoint natsort_insert (x : string) (l : list string) : list string :=
  match l with
  | [] => [x]
  | y :: l' => if natural_leb x y then x :: l else y :: natsort_insert x l'
  end.

Definition natsorted (l : list string) : list string := foldr natsort_insert [] l.

(** ** The wrapper *)

(** The arguments of [louvain] besides the container. *)
Record args : Type := mkArgs {
  resolution : option Q;
  random_state : Z;
  restrict_to : option (string * list pyval);
  key_added : option string;
  adjacency : option spmatrix;
  flavor : string;
  directed : bool;
  use_weights : bool;
  partition_type : option vertex_partition;
  partition_kwargs : option (gmap string kwarg);
  copy : bool
}.

Definition is_None {A} (o : option A) : bool :=
  match o with
  | None => true
  | Some _ => false
  end.

(** [groups[k] = v] on an array *)
Definition setitem_int (groups : list Z) (k : nat) (v : Z) : exn + list Z :=
  if decide (k < length groups) then inr (<[k := v]> groups) else inl IndexError.

(** Lines 148-149: the dict of [community.best_partition] turned into an
    array indexed by node. *)
Definition densify (partition : gmap nat Z) : exn + list Z :=
  foldl (fun acc kv =>
           match acc with
           | inr groups => setitem_int groups (fst kv) (snd kv)
           | inl e => inl e
           end)
        (inr (replicate (size partition) 0%Z))
        (map_to_list partition).

Section Louvain.
Context `{Backends}.

(** Lines 88-97: the partition-type guard, the copy, and the adjacency
    matrix, given or found under [uns['neighbors']['connectivities']]. *)
Definition resolve_adjacency (a : args) : M (local_adata * spmatrix) :=
  emit (LogInfo MsgRunning) ;;;
  raise_if (bool_decide (flavor a <> "vtraag") && negb (is_None (partition_type a)))
           (ValueError PartitionTypeNeedsVtraag) ;;;
  adata <- (if copy a then (c <- get_caller ;; ret (Owned c)) else ret Alias) ;;
  ad <- deref adata ;;
  raise_if (is_None (adjacency a) && is_None (uns ad !! "neighbors"))
           (ValueError NeedNeighbors) ;;;
  adjacency <- match adjacency a with
               | Some m => ret m
               | None =>
                   neighbors <- lift (getitem (uns ad) "neighbors") ;;
                   v <- lift (getitem neighbors "connectivities") ;;
                   match v with
                   | UnsMatrix m => ret m
                   | UnsParams _ _ => raise TypeError
                   end
               end ;;
  ret (adata, adjacency).

(** Lines 103-107: every category must be one of the column's. *)
Fixpoint check_categories (adata : local_adata) (restrict_key : string)
    (categories : list pyval) : M unit :=
  match categories with
  | [] => ret tt
  | c :: categories' =>
      ad <- deref adata ;;
      col <- lift (getitem (obs ad) restrict_key) ;;
      raise_if (bool_decide (c ∉ cat_categories col))
               (ValueError (NotAValidCategory c restrict_key)) ;;;
      check_categories adata restrict_key categories'
  end.

(** Lines 98-110: validation of [restrict_to] and the slicing of the
    adjacency matrix.  The result carries the locals [restrict_key],
    [restrict_categories] and [restrict_indices] when a restriction is
    active. *)
Definition restrict (a : args) (adata : local_adata) (adjacency : spmatrix)
    : M (option (string * list pyval * list bool) * spmatrix) :=
  match restrict_to a with
  | None => ret (None, adjacency)
  | Some (restrict_key, restrict_categories) =>
      c0 <- lift (getitem0 restrict_categories) ;;
      raise_if (negb (isinstance_str c0)) (ValueError UseStringsForCategories) ;;;
      check_categories adata restrict_key restrict_categories ;;;
      ad <- deref adata ;;
      col <- lift (getitem (obs ad) restrict_key) ;;
      let restrict_indices := isin (cat_values col) restrict_categories in
      adjacency <- lift (getitem_rows adjacency restrict_indices) ;;
      adjacency <- lift (getitem_cols adjacency restrict_indices) ;;
      ret (Some (restrict_key, restrict_categories, restrict_indices), adjacency)
  end.

(** Lines 111-151: the dispatch on [flavor]; the result is [groups].
    The imports of lines 123 and 144-145 are taken to succeed.  Lines 129
    and 131 update the dict [partition_kwargs] in place; what is modelled is
    the dict that [find_partition] receives. *)
Definition run_backend (a : args) (adjacency : spmatrix) : M (list Z) :=
  if bool_decide (flavor a = "vtraag") || bool_decide (flavor a = "igraph") then
    when (bool_decide (flavor a = "igraph") && negb (is_None (resolution a)))
         (emit (LogWarn MsgResolutionNoEffect)) ;;;
    let directed :=
      if directed a && bool_decide (flavor a = "igraph") then false else directed a in
    when (negb directed) (emit (LogM MsgUndirected)) ;;;
    let g := get_igraph_from_adjacency adjacency directed in
    let weights := if use_weights a then Some (es_weight g) else None in
    if bool_decide (flavor a = "vtraag") then
      let partition_kwargs := default ∅ (partition_kwargs a) in
      let partition_type := default RBConfigurationVertexPartition (partition_type a) in
      let partition_kwargs :=
        match resolution a with
        | Some r => <["resolution_parameter" := KwFloat r]> partition_kwargs
        | None => partition_kwargs
        end in
      let partition_kwargs :=
        match weights with
        | Some w => <["weights" := KwArray w]> partition_kwargs
        | None => partition_kwargs
        end in
      emit (LogInfo MsgUsingLouvainPackage) ;;;
      emit (SetRngSeed (random_state a)) ;;;
      emit (FindPartition g partition_type partition_kwargs) ;;;
      call (find_partition (random_state a) g partition_type partition_kwargs)
    else
      emit (CommunityMultilevel g weights) ;;;
      call (community_multilevel g weights)
  else if bool_decide (flavor a = "taynaud") then
    let g := NxGraph adjacency in
    emit (BestPartition g) ;;;
    partition <- call (best_partition g) ;;
    lift (densify partition)
  else raise (ValueError FlavorNeedsToBe).

(** [adata.obs[key] = column]; the column must have one value per
    sample. *)
Definition obs_setitem (adata : local_adata) (key : string) (column : Categorical)
    : M local_adata :=
  ad <- deref adata ;;
  raise_if (bool_decide (length (cat_values column) <> n_obs ad))
           (ValueError LengthMismatch) ;;;
  update adata (set_obs (insert key column)).

(** Lines 154-168: the label column, returned with the key it goes to. *)
Definition label_column (a : args) (adata : local_adata)
    (restriction : option (string * list pyval * list bool)) (groups : list Z)
    : M (string * Categorical) :=
  let unique_groups := np_unique groups in
  match restriction with
  | None =>
      let groups := map pretty groups in
      let key_added := default "louvain" (key_added a) in
      ret (key_added,
           {| cat_values := map PStr groups;
              cat_categories := map PStr (natsorted (map pretty unique_groups)) |})
  | Some (restrict_key, restrict_categories, restrict_indices) =>
      let key_added := default (restrict_key +:+ "_R") (key_added a) in
      ad <- deref adata ;;
      col <- lift (getitem (obs ad) restrict_key) ;;
      let all_groups := map astype_U (cat_values col) in
      joined <- lift (str_join "-" restrict_categories) ;;
      let prefix := joined +:+ "," in
      let new_groups := map (fun g => prefix +:+ g) (map pretty groups) in
      all_groups <- lift (iloc_setitem restrict_indices all_groups new_groups) ;;
      ret (key_added,
           {| cat_values := map PStr all_groups;
              cat_categories := map PStr (natsorted (pd_unique all_groups)) |})
  end.

(** Lines 152-175: the labels and the parameters are written into the
    container and the result is returned. *)
Definition annotate (a : args) (adata : local_adata)
    (restriction : option (string * list pyval * list bool)) (groups : list Z)
    : M (option AnnData) :=
  let n_clusters := length (np_unique groups) in
  kc <- label_column a adata restriction groups ;;
  adata <- obs_setitem adata (fst kc) (snd kc) ;;
  adata <- update adata (set_uns (insert "louvain" ∅)) ;;
  adata <- update adata
             (set_uns (alter (insert "params" (UnsParams (resolution a) (random_state a)))
                             "louvain")) ;;
  emit (LogInfo MsgFinished) ;;;
  emit (LogHint (MsgFound n_clusters (fst kc))) ;;;
  ad <- deref adata ;;
  ret (if copy a then Some ad else None).

Definition louvain (a : args) : M (option AnnData) :=
  r <- resolve_adjacency a ;;
  s <- restrict a (fst r) (snd r) ;;
  groups <- run_backend a (snd s) ;;
  annotate a (fst r) (fst s) groups.

End Louvain.

(** ** The phases as expressions

    The same computation written without the monad, one expression per
    phase; the proofs below show that [louvain] computes exactly this. *)

Section Expressions.
Context `{Backends}.

(** The value of the local variable [adata] after line 92. *)
Definition local_of (a : args) (c : AnnData) : local_adata :=
  if copy a then Owned c else Alias.

(** Lines 93-97 as one expression. *)
Definition adjacency_source (a : args) (c : AnnData) : exn + spmatrix :=
  match adjacency a with
  | Some m => inr m
  | None =>
      match uns c !! "neighbors" with
      | None => inl (ValueError NeedNeighbors)
      | Some neighbors =>
          match neighbors !! "connectivities" with
          | None => inl (KeyError "connectivities")
          | Some (UnsMatrix m) => inr m
          | Some (UnsParams _ _) => inl TypeError
          end
      end
  end.

(** The first category that the column does not have, if any. *)
Definition first_unknown (col : Categorical) (cs : list pyval) : option pyval :=
  snd <$> list_find (fun x => x ∉ cat_categories col) cs.

(** Lines 98-110 as one expression, for a container that [adata] shows. *)
Definition restriction_of (a : args) (c : AnnData) (adj : spmatrix)
    : exn + (option (string * list pyval * list bool) * spmatrix) :=
  match restrict_to a with
  | None => inr (None, adj)
  | Some (key, cs) =>
      match cs with
      | [] => inl IndexError
      | c0 :: _ =>
          if negb (isinstance_str c0) then inl (ValueError UseStringsForCategories)
          else match obs c !! key with
               | None => inl (KeyError key)
               | Some col =>
                   match first_unknown col cs with
                   | Some bad => inl (ValueError (NotAValidCategory bad key))
                   | None =>
                       let idx := isin (cat_values col) cs in
                       match getitem_rows adj idx with
                       | inl e => inl e
                       | inr adj1 =>
                           match getitem_cols adj1 idx with
                           | inl e => inl e
                           | inr adj2 => inr (Some (key, cs, idx), adj2)
                           end
                       end
                   end
               end
      end
  end.

(** The two validation phases together. *)
Definition validated (a : args) (c : AnnData)
    : exn + (option (string * list pyval * list bool) * spmatrix) :=
  if bool_decide (flavor a <> "vtraag") && negb (is_None (partition_type a))
  then inl (ValueError PartitionTypeNeedsVtraag)
  else match adjacency_source a c with
       | inl e => inl e
       | inr adj => restriction_of a c adj
       end.

(** Lines 154-168 as one expression, for a container that [adata] shows. *)
Definition label_column_of (a : args) (c : AnnData)
    (restriction : option (string * list pyval * list bool)) (groups : list Z)
    : exn + (string * Categorical) :=
  match restriction with
  | None =>
      inr (default "louvain" (key_added a),
           {| cat_values := map PStr (map pretty groups);
              cat_categories := map PStr (natsorted (map pretty (np_unique groups))) |})
  | Some (key, cs, idx) =>
      match obs c !! key with
      | None => inl (KeyError key)
      | Some col =>
          match str_join "-" cs with
          | inl e => inl e
          | inr joined =>
              match iloc_setitem idx (map astype_U (cat_values col))
                      (map (fun g => (joined +:+ ",") +:+ g) (map pretty groups)) with
              | inl e => inl e
              | inr all_groups =>
                  inr (default (key +:+ "_R") (key_added a),
                       {| cat_values := map PStr all_groups;
                          cat_categories := map PStr (natsorted (pd_unique all_groups)) |})
              end
          end
      end
  end.

(** Lines 157/166 and 169-170: what a successful call writes. *)
Definition annotated (a : args) (key : string) (col : Categorical) (ad : AnnData) : AnnData :=
  set_uns (alter (insert "params" (UnsParams (resolution a) (random_state a))) "louvain")
    (set_uns (insert "louvain" ∅) (set_obs (insert key col) ad)).

(** Lines 114-121: the locals [directed], [g] and [weights]. *)
Definition directed_of (a : args) : bool :=
  if directed a && bool_decide (flavor a = "igraph") then false else directed a.

Definition graph_of (a : args) (adj : spmatrix) : igraph :=
  get_igraph_from_adjacency adj (directed_of a).

Definition weights_of (a : args) (adj : spmatrix) : option (list Q) :=
  if use_weights a then Some (es_weight (graph_of a adj)) else None.

(** Lines 124-131: the keyword arguments of [find_partition]. *)
Definition kwargs_of (a : args) (adj : spmatrix) : gmap string kwarg :=
  let kwargs := default ∅ (partition_kwargs a) in
  let kwargs :=
    match resolution a with
    | Some r => <["resolution_parameter" := KwFloat r]> kwargs
    | None => kwargs
    end in
  match weights_of a adj with
  | Some w => <["weights" := KwArray w]> kwargs
  | None => kwargs
  end.

Definition from_backend {A} (r : string + A) : exn + A :=
  match r with
  | inl what => inl (BackendError what)
  | inr x => inr x
  end.

(** The membership vector [groups] of lines 111-151. *)
Definition backend_groups (a : args) (adj : spmatrix) : exn + list Z :=
  if bool_decide (flavor a = "vtraag") then
    from_backend (find_partition (random_state a) (graph_of a adj)
                    (default RBConfigurationVertexPartition (partition_type a))
                    (kwargs_of a adj))
  else if bool_decide (flavor a = "igraph") then
    from_backend (community_multilevel (graph_of a adj) (weights_of a adj))
  else if bool_decide (flavor a = "taynaud") then
    match best_partition (NxGraph adj) with
    | inl what => inl (BackendError what)
    | inr partition => densify partition
    end
  else inl (ValueError FlavorNeedsToBe).

(** The events of lines 111-151. *)
Definition backend_events (a : args) (adj : spmatrix) : list event :=
  if bool_decide (flavor a = "vtraag") then
    (if directed_of a then [] else [LogM MsgUndirected]) ++
    [LogInfo MsgUsingLouvainPackage; SetRngSeed (random_state a);
     FindPartition (graph_of a adj)
       (default RBConfigurationVertexPartition (partition_type a)) (kwargs_of a adj)]
  else if bool_decide (flavor a = "igraph") then
    (if is_None (resolution a) then [] else [LogWarn MsgResolutionNoEffect]) ++
    (if directed_of a then [] else [LogM MsgUndirected]) ++
    [CommunityMultilevel (graph_of a adj) (weights_of a adj)]
  else if bool_decide (flavor a = "taynaud") then [BestPartition (NxGraph adj)]
  else [].

(** ** The whole call as one expression *)

Definition louvain_outcome (a : args) (c : AnnData)
    : AnnData * list event * (exn + option AnnData) :=
  match validated a c with
  | inl e => (c, [LogInfo MsgRunning], inl e)
  | inr (restriction, adj) =>
      match backend_groups a adj with
      | inl e => (c, LogInfo MsgRunning :: backend_events a adj, inl e)
      | inr groups =>
          match label_column_of a c restriction groups with
          | inl e => (c, LogInfo MsgRunning :: backend_events a adj, inl e)
          | inr (key, col) =>
              if decide (length (cat_values col) = n_obs c)
              then (if copy a then c else annotated a key col c,
                    LogInfo MsgRunning :: backend_events a adj ++
                      [LogInfo MsgFinished;
                       LogHint (MsgFound (length (np_unique groups)) key)],
                    inr (if copy a then Some (annotated a key col c) else None))
              else (c, LogInfo MsgRunning :: backend_events a adj,
                    inl (ValueError LengthMismatch))
          end
      end
  end.

End Expressions.

(** ** What the claims speak about *)

(** The key of the output column, lines 156 and 161. *)
Definition output_key (a : args) : string :=
  match restrict_to a with
  | None => default "louvain" (key_added a)
  | Some (key, _) => default (key +:+ "_R") (key_added a)
  end.

(** The container that holds the result of a call: the returned copy, or
    the caller's own object when nothing is returned. *)
Definition result_container (c' : AnnData) (out : option AnnData) : AnnData :=
  match out with
  | Some ad => ad
  | None => c'
  end.

(** The values and the categories of a label column, as strings. *)
Definition labels_of (ad : AnnData) (key : string) : option (list pyval) :=
  cat_values <$> obs ad !! key.

Definition categories_of (ad : AnnData) (key : string) : option (list pyval) :=
  cat_categories <$> obs ad !! key.

(** The local variable [adata] shows the container [c]: it is the
    caller's object or a copy equal to it. *)
Definition views (adata : local_adata) (c : AnnData) : Prop :=
  match adata with
  | Alias => True
  | Owned ad => ad = c
  end.

(** A [neighbors] entry, when there is one, holds the connectivities
    matrix that [pp.neighbors] stores. *)
Definition neighbors_ok (c : AnnData) : Prop :=
  forall d, uns c !! "neighbors" = Some d ->
            exists m, d !! "connectivities" = Some (UnsMatrix m).

(** The number of distinct items of a list. *)
Definition n_distinct `{Countable A} (l : list A) : nat := size (list_to_set (C:=gset A) l).

(** [s] is not after [t] in the natural order. *)
Definition natural_le (s t : string) : Prop := natural_leb s t = true.

Record compare_spec {A} (cmp : A -> A -> comparison) : Prop := {
  cmp_refl : forall a, cmp a a = Eq;
  cmp_eq : forall a b, cmp a b = Eq -> a = b;
  cmp_antisym : forall a b, cmp b a = CompOpp (cmp a b);
  cmp_lt_trans : forall a b c, cmp a b = Lt -> cmp b c = Lt -> cmp a c = Lt
}.

(** The label of a restricted sample in the spec's words: the restricting
    categories in sorted order, joined by a separator, followed by the new
    cluster id. *)
Definition spec_restricted_label (categories : list string) (cluster : Z) : string :=
  (String.concat "-" (merge_sort String.le categories) +:+ ",") +:+ pretty cluster.

(** ** Fixtures: small containers and deterministic backends *)

Definition alternating (n : nat) : list Z :=
  map (fun i => Z.of_nat (i mod 2)) (seq 0 n).

Definition n_nodes (g : igraph) : nat := fst (sp_shape (ig_adjacency g)).

Definition toy_backends : Backends := {|
  es_weight := fun g => concat (sp_rows (ig_adjacency g));
  find_partition := fun _ g _ _ => inr (alternating (n_nodes g));
  community_multilevel := fun g _ => inr (alternating (n_nodes g));
  best_partition := fun g =>
    match g with
    | NxGraph m => inr (list_to_map (imap (fun i x => (i, x)) (alternating (fst (sp_shape m)))))
    end
|}.

(** Eleven cells, each a cluster of its own. *)
Definition singleton_backends : Backends := {|
  es_weight := fun g => concat (sp_rows (ig_adjacency g));
  find_partition := fun _ g _ _ => inr (map Z.of_nat (seq 0 (n_nodes g)));
  community_multilevel := fun g _ => inr (map Z.of_nat (seq 0 (n_nodes g)));
  best_partition := fun g =>
    match g with
    | NxGraph m => inr (list_to_map (imap (fun i x => (i, x))
                                          (map Z.of_nat (seq 0 (fst (sp_shape m))))))
    end
|}.

Definition ones (n : nat) : spmatrix :=
  {| sp_shape := (n, n); sp_rows := replicate n (replicate n 1%Q) |}.

Definition cell_type : Categorical :=
  {| cat_values := [PStr "A"; PStr "B"; PStr "C"; PStr "A"; PStr "C"];
     cat_categories := [PStr "A"; PStr "B"; PStr "C"] |}.

Definition batch : Categorical :=
  {| cat_values := [PStr "A"; PInt 1; PStr "A"; PInt 1; PStr "B"];
     cat_categories := [PStr "A"; PStr "B"; PInt 1] |}.

Definition stale_labels : Categorical :=
  {| cat_values := [PStr "old0"; PStr "old1"; PStr "old2"; PStr "old3"; PStr "old4"];
     cat_categories :=
       [PStr "old0"; PStr "old1"; PStr "old2"; PStr "old3"; PStr "old4"] |}.

Definition toy_adata : AnnData :=
  {| n_obs := 5;
     obs := {[ "cell_type" := cell_type ]};
     uns := {[ "neighbors" := {[ "connectivities" := UnsMatrix (ones 5) ]} ]} |}.

(** The fixture after an earlier run has left a column [cell_type_R]. *)
Definition relabelled_adata : AnnData :=
  set_obs (insert "cell_type_R" stale_labels) toy_adata.

Definition mixed_adata : AnnData :=
  {| n_obs := 5;
     obs := {[ "batch" := batch ]};
     uns := {[ "neighbors" := {[ "connectivities" := UnsMatrix (ones 5) ]} ]} |}.

Definition no_neighbors_adata : AnnData :=
  {| n_obs := 5; obs := {[ "cell_type" := cell_type ]}; uns := ∅ |}.

Definition eleven_cells : AnnData :=
  {| n_obs := 11; obs := ∅;
     uns := {[ "neighbors" := {[ "connectivities" := UnsMatrix (ones 11) ]} ]} |}.

Definition default_args : args :=
  {| resolution := None; random_state := 0; restrict_to := None; key_added := None;
     adjacency := None; flavor := "vtraag"; directed := true; use_weights := false;
     partition_type := None; partition_kwargs := None; copy := false |}.

Definition with_restrict_to (r : option (string * list pyval)) (a : args) : args :=
  {| resolution := resolution a; random_state := random_state a; restrict_to := r;
     key_added := key_added a; adjacency := adjacency a; flavor := flavor a;
     directed := directed a; use_weights := use_weights a;
     partition_type := partition_type a; partition_kwargs := partition_kwargs a;
     copy := copy a |}.

Definition with_resolution (r : option Q) (a : args) : args :=
  {| resolution := r; random_state := random_state a; restrict_to := restrict_to a;
     key_added := key_added a; adjacency := adjacency a; flavor := flavor a;
     directed := directed a; use_weights := use_weights a;
     partition_type := partition_type a; partition_kwargs := partition_kwargs a;
     copy := copy a |}.

Definition with_adjacency (m : option spmatrix) (a : args) : args :=
  {| resolution := resolution a; random_state := random_state a; restrict_to := restrict_to a;
     key_added := key_added a; adjacency := m; flavor := flavor a;
     directed := directed a; use_weights := use_weights a;
     partition_type := partition_type a; partition_kwargs := partition_kwargs a;
     copy := copy a |}.

Definition with_flavor (f : string) (a : args) : args :=
  {| resolution := resolution a; random_state := random_state a; restrict_to := restrict_to a;
     key_added := key_added a; adjacency := adjacency a; flavor := f;
     directed := directed a; use_weights := use_weights a;
     partition_type := partition_type a; partition_kwargs := partition_kwargs a;
     copy := copy a |}.

Definition igraph_with_partition_type : args :=
  {| resolution := None; random_state := 0; restrict_to := None; key_added := None;
     adjacency := None; flavor := "igraph"; directed := true; use_weights := false;
     partition_type := Some RBConfigurationVertexPartition; partition_kwargs := None;
     copy := false |}.

Definition unknown_flavor : args := with_flavor "leiden" default_args.

Definition restricted_to (key : string) (categories : list pyval) : args :=
  with_restrict_to (Some (key, categories)) default_args.

Definition igraph_args : args := with_flavor "igraph" default_args.

Definition run_toy (a : args) (c : AnnData) : AnnData * list event * (exn + option AnnData) :=
  @louvain toy_backends a c.

(** ** Further notions for the properties of the wrapper *)

(** The events that are calls into a clustering library. *)
Definition is_backend_call (e : event) : bool :=
  match e with
  | FindPartition _ _ _ | CommunityMultilevel _ _ | BestPartition _ => true
  | _ => false
  end.

Definition backend_calls (ev : list event) : nat :=
  length (filter (fun e => is_backend_call e = true) ev).

(** The three values of [flavor] that the dispatch knows. *)
Definition known_flavor (f : string) : Prop :=
  f = "vtraag" \/ f = "igraph" \/ f = "taynaud".

(** A column fits a container of [n] samples: one value per sample, each
    value among the categories. *)
Definition column_ok (n : nat) (col : Categorical) : Prop :=
  length (cat_values col) = n /\
  Forall (fun v => v ∈ cat_categories col) (cat_values col).

Definition obs_ok (ad : AnnData) : Prop :=
  forall key col, obs ad !! key = Some col -> column_ok (n_obs ad) col.


Definition with_copy (b : bool) (a : args) : args :=
  {| resolution := resolution a; random_state := random_state a; restrict_to := restrict_to a;
     key_added := key_added a; adjacency := adjacency a; flavor := flavor a;
     directed := directed a; use_weights := use_weights a;
     partition_type := partition_type a; partition_kwargs := partition_kwargs a;
     copy := b |}.

Definition with_random_state (seed : Z) (a : args) : args :=
  {| resolution := resolution a; random_state := seed; restrict_to := restrict_to a;
     key_added := key_added a; adjacency := adjacency a; flavor := flavor a;
     directed := directed a; use_weights := use_weights a;
     partition_type := partition_type a; partition_kwargs := partition_kwargs a;
     copy := copy a |}.

(** The rank of position [i] among the positions that [mask] selects. *)
Definition rank_in (mask : list bool) (i : nat) : nat := count_true (take i mask).

(** A container whose [neighbors] entry has lost its connectivities. *)
Definition no_connectivities_adata : AnnData :=
  {| n_obs := 5; obs := {[ "cell_type" := cell_type ]}; uns := {[ "neighbors" := ∅ ]} |}.

Definition with_key_added (k : option string) (a : args) : args :=
  {| resolution := resolution a; random_state := random_state a; restrict_to := restrict_to a;
     key_added := k; adjacency := adjacency a; flavor := flavor a;
     directed := directed a; use_weights := use_weights a;
     partition_type := partition_type a; partition_kwargs := partition_kwargs a;
     copy := copy a |}.

(** * Proofs *)

(** ** The helpers on small inputs *)

Example natsort_key_ex1 : natsort_key "a10b" = [CText "a"; CNum 10; CText "b"].
Proof. reflexivity. Qed.

Example natsort_key_ex2 : natsort_key "10" = [CText ""; CNum 10].
Proof. reflexivity. Qed.

Example natsorted_ex : natsorted ["10"; "1"; "2"; "0"; "A-B,10"; "A-B,9"]
                       = ["0"; "1"; "2"; "10"; "A-B,9"; "A-B,10"].
Proof. reflexivity. Qed.

Example np_unique_ex : np_unique [3; 1; 3; 0; 1]%Z = [0; 1; 3]%Z.
Proof. reflexivity. Qed.

Example pd_unique_ex : pd_unique ["b"; "a"; "b"; "c"; "a"] = ["b"; "a"; "c"].
Proof. reflexivity. Qed.

Example toy_unrestricted :
  let r := run_toy default_args toy_adata in
  snd r = inr None /\
  labels_of (fst (fst r)) "louvain" = Some [PStr "0"; PStr "1"; PStr "0"; PStr "1"; PStr "0"] /\
  categories_of (fst (fst r)) "louvain" = Some [PStr "0"; PStr "1"] /\
  uns (fst (fst r)) !! "louvain" = Some {[ "params" := UnsParams None 0 ]}.
Proof. vm_compute. repeat split; reflexivity. Qed.

Example toy_restricted :
  let r := run_toy (with_restrict_to (Some ("cell_type", [PStr "A"; PStr "B"])) default_args)
                   toy_adata in
  snd r = inr None /\
  labels_of (fst (fst r)) "cell_type_R"
    = Some [PStr "A-B,0"; PStr "A-B,1"; PStr "C"; PStr "A-B,0"; PStr "C"] /\
  categories_of (fst (fst r)) "cell_type_R" = Some [PStr "A-B,0"; PStr "A-B,1"; PStr "C"].
Proof. vm_compute. repeat split; reflexivity. Qed.

(** ** The monadic phases compute the expressions *)

Lemma bind_pure {A B} (m : M A) (f : A -> M B) c x :
  m c = (c, [], inr x) -> bind m f c = f x c.
Proof. unfold bind. intros ->. by destruct (f x c) as [[? ?] ?]. Qed.

Lemma deref_views (adata : local_adata) (c : AnnData) :
  views adata c -> deref adata c = (c, [], inr c).
Proof. destruct adata; simpl; [done | by intros ->]. Qed.

Section Validation.
Context `{Backends}.

Lemma views_local_of a c : views (local_of a c) c.
Proof. unfold local_of. by destruct (copy a). Qed.

Lemma resolve_adjacency_run (a : args) (c : AnnData) :
  resolve_adjacency a c =
    (c, [LogInfo MsgRunning],
     if bool_decide (flavor a <> "vtraag") && negb (is_None (partition_type a))
     then inl (ValueError PartitionTypeNeedsVtraag)
     else match adjacency_source a c with
          | inr m => inr (local_of a c, m)
          | inl e => inl e
          end).
Proof.
  unfold resolve_adjacency, adjacency_source, local_of, bind, emit, raise_if,
    raise, ret, get_caller, lift, getitem, deref.
  destruct (bool_decide (flavor a <> "vtraag") && negb (is_None (partition_type a)));
    [done|].
  destruct (copy a), (adjacency a) as [m|]; simpl; try done;
    destruct (uns c !! "neighbors") as [d|]; simpl; try done;
    destruct (d !! "connectivities") as [[m|? ?]|]; done.
Qed.

Lemma check_categories_run adata key cs c col :
  views adata c -> obs c !! key = Some col ->
  check_categories adata key cs c =
    (c, [],
     match list_find (fun x => x ∉ cat_categories col) cs with
     | Some (_, bad) => inl (ValueError (NotAValidCategory bad key))
     | None => inr tt
     end).
Proof.
  intros Hv Hcol. induction cs as [|x cs IH]; [done|].
  cbn [check_categories list_find].
  rewrite (bind_pure _ _ _ c) by (by apply deref_views).
  rewrite (bind_pure _ _ _ col) by (unfold lift, getitem; by rewrite Hcol).
  unfold raise_if. case_bool_decide as Hx.
  - by case_decide.
  - case_decide; [done|]. rewrite (bind_pure _ _ _ tt) by done.
    rewrite IH. by destruct (list_find _ cs) as [[? ?]|].
Qed.

Lemma first_unknown_None col cs :
  first_unknown col cs = None <-> Forall (fun x => x ∈ cat_categories col) cs.
Proof.
  unfold first_unknown. rewrite fmap_None, list_find_None.
  apply Forall_iff. intros x. split; [apply dec_stable | auto].
Qed.

Lemma restrict_run a adata adj c :
  views adata c -> restrict a adata adj c = (c, [], restriction_of a c adj).
Proof.
  intros Hv. unfold restrict, restriction_of.
  destruct (restrict_to a) as [[key cs]|]; [|done].
  destruct cs as [|c0 cs]; [done|].
  rewrite (bind_pure _ _ _ c0) by done.
  unfold raise_if at 1. destruct (isinstance_str c0); cbn [negb]; [|done].
  rewrite (bind_pure _ _ _ tt) by done.
  destruct (obs c !! key) as [col|] eqn:Hcol.
  - unfold bind at 1. rewrite (check_categories_run _ _ _ _ col) by done.
    unfold first_unknown.
    destruct (list_find _ (c0 :: cs)) as [[i bad]|]; [done|].
    cbn [fst snd app fmap option_fmap option_map].
    rewrite (bind_pure _ _ _ c) by (by apply deref_views).
    rewrite (bind_pure _ _ _ col) by (unfold lift, getitem; by rewrite Hcol).
    unfold lift, bind, ret.
    destruct (getitem_rows _ _) as [e|adj1]; [done|].
    by destruct (getitem_cols _ _) as [e|adj2].
  - cbn [check_categories].
    unfold bind at 1. rewrite (bind_pure _ _ _ c) by (by apply deref_views).
    unfold lift, getitem, bind. by rewrite Hcol.
Qed.

Lemma louvain_run (a : args) (c : AnnData) :
  louvain a c =
    match validated a c with
    | inl e => (c, [LogInfo MsgRunning], inl e)
    | inr s =>
        let r := (groups <- run_backend a (snd s) ;;
                  annotate a (local_of a c) (fst s) groups) c in
        (fst (fst r), LogInfo MsgRunning :: snd (fst r), snd r)
    end.
Proof.
  unfold louvain, validated. unfold bind at 1. rewrite resolve_adjacency_run.
  destruct (bool_decide _ && negb _); [done|].
  destruct (adjacency_source a c) as [e|adj]; [done|].
  cbn [fst snd]. unfold bind at 1.
  rewrite restrict_run by apply views_local_of.
  destruct (restriction_of a c adj) as [e|s]; [done|].
  cbn [app fst snd]. by destruct (bind _ _ c) as [[? ?] ?].
Qed.

End Validation.

Section Annotation.
Context `{Backends}.

Lemma label_column_run a adata restriction groups c :
  views adata c ->
  label_column a adata restriction groups c
  = (c, [], label_column_of a c restriction groups).
Proof.
  intros Hv. unfold label_column, label_column_of.
  destruct restriction as [[[key cs] idx]|]; [|done].
  rewrite (bind_pure _ _ _ c) by (by apply deref_views).
  unfold lift, getitem, bind, ret.
  destruct (obs c !! key) as [col|]; [|done].
  destruct (str_join "-" cs) as [e|joined]; [done|]. cbn [app].
  by destruct (iloc_setitem _ _ _) as [e|all_groups].
Qed.

Lemma annotate_run a restriction groups c :
  annotate a (local_of a c) restriction groups c =
    match label_column_of a c restriction groups with
    | inl e => (c, [], inl e)
    | inr (key, col) =>
        if decide (length (cat_values col) = n_obs c)
        then (if copy a then c else annotated a key col c,
              [LogInfo MsgFinished; LogHint (MsgFound (length (np_unique groups)) key)],
              inr (if copy a then Some (annotated a key col c) else None))
        else (c, [], inl (ValueError LengthMismatch))
    end.
Proof.
  unfold annotate. unfold bind at 1.
  rewrite label_column_run by apply views_local_of.
  destruct (label_column_of a c restriction groups) as [e|[key col]]; [done|].
  cbn [fst snd app]. unfold obs_setitem, annotated, local_of.
  destruct (copy a); cbn [deref update].
  - unfold bind, ret, raise_if, raise, emit. case_bool_decide; case_decide; done.
  - unfold bind, ret, raise_if, raise, emit, get_caller, modify_caller.
    case_bool_decide; case_decide; done.
Qed.

End Annotation.

Section Dispatch.
Context `{Backends}.

Lemma run_backend_run a adj c :
  run_backend a adj c = (c, backend_events a adj, backend_groups a adj).
Proof.
  unfold run_backend, backend_events, backend_groups, kwargs_of, weights_of, graph_of.
  fold (directed_of a).
  case_bool_decide as Hv.
  - rewrite bool_decide_false by (rewrite Hv; discriminate). cbn [orb andb when].
    rewrite (bind_pure _ _ _ tt) by done.
    destruct (directed_of a); cbn [negb when]; unfold bind, emit, ret, call, raise;
      cbn [app]; by destruct (find_partition _ _ _ _).
  - cbn [orb]. case_bool_decide as Hi; cbn [andb].
    + destruct (resolution a), (directed_of a); cbn [is_None negb when];
        unfold bind, emit, ret, call, raise; cbn [app];
        by destruct (community_multilevel _ _).
    + case_bool_decide as Ht; [|done].
      unfold bind, emit, ret, call, lift, raise; cbn [app].
      by destruct (best_partition _).
Qed.

End Dispatch.

Section Outcome.
Context `{Backends}.

Lemma louvain_is_outcome (a : args) (c : AnnData) : louvain a c = louvain_outcome a c.
Proof.
  rewrite louvain_run. unfold louvain_outcome.
  destruct (validated a c) as [e|[restriction adj]]; [done|].
  cbn [fst snd]. unfold bind at 1 2 3. rewrite run_backend_run.
  destruct (backend_groups a adj) as [e|groups]; cbn [fst snd]; [done|].
  rewrite annotate_run.
  destruct (label_column_of a c restriction groups) as [e|[key col]]; cbn [fst snd].
  - by rewrite app_nil_r.
  - case_decide; cbn [fst snd]; [done|]. by rewrite app_nil_r.
Qed.

(** Whatever the call raises, it has not written to the container. *)
Lemma louvain_error_frame (a : args) (c c' : AnnData) ev e :
  louvain a c = (c', ev, inl e) -> c' = c.
Proof.
  rewrite louvain_is_outcome. unfold louvain_outcome.
  destruct (validated a c) as [?|[restriction adj]]; [by intros [= <- _ _]|].
  destruct (backend_groups a adj) as [?|groups]; [by intros [= <- _ _]|].
  destruct (label_column_of a c restriction groups) as [?|[key col]];
    [by intros [= <- _ _]|].
  case_decide; [done | by intros [= <- _ _]].
Qed.

(** A successful call went through validation, got [groups] from the
    backend and wrote the label column. *)
Lemma louvain_success (a : args) (c c' : AnnData) ev out :
  louvain a c = (c', ev, inr out) ->
  exists restriction adj groups key col,
    validated a c = inr (restriction, adj) /\
    backend_groups a adj = inr groups /\
    label_column_of a c restriction groups = inr (key, col) /\
    length (cat_values col) = n_obs c /\
    ev = LogInfo MsgRunning :: backend_events a adj ++
           [LogInfo MsgFinished; LogHint (MsgFound (length (np_unique groups)) key)] /\
    result_container c' out = annotated a key col c /\
    c' = (if copy a then c else annotated a key col c).
Proof.
  rewrite louvain_is_outcome. unfold louvain_outcome.
  destruct (validated a c) as [e|[restriction adj]] eqn:Hval; [done|].
  destruct (backend_groups a adj) as [e|groups] eqn:Hgroups; [done|].
  destruct (label_column_of a c restriction groups) as [e|[key col]] eqn:Hcol; [done|].
  case_decide as Hlen; [|done]. intros [= <- <- <-].
  exists restriction, adj, groups, key, col.
  repeat split; try done. by destruct (copy a).
Qed.

(** The exceptions of the later phases. *)
Lemma str_join_error sep items e : str_join sep items = inl e -> e = TypeError.
Proof.
  induction items as [|[s|z] rest IH]; cbn [str_join]; [done| |by intros [= <-]].
  destruct rest as [|x rest]; [done|].
  destruct (str_join sep (x :: rest)) as [e'|r]; [|done].
  intros [= <-]. by apply IH.
Qed.

Lemma densify_error partition e : densify partition = inl e -> e = IndexError.
Proof.
  unfold densify. generalize (replicate (size partition) 0%Z).
  induction (map_to_list partition) as [|kv l IH]; intros groups; cbn [foldl]; [done|].
  unfold setitem_int at 2. case_decide; [apply IH|].
  clear IH. induction l as [|kv' l IH]; cbn [foldl]; [by intros [= <-] | done].
Qed.

Lemma restriction_of_error a c adj e :
  restriction_of a c adj = inl e ->
  e = IndexError \/ (exists key, e = KeyError key) \/
  e = ValueError UseStringsForCategories \/
  exists bad key, e = ValueError (NotAValidCategory bad key).
Proof.
  unfold restriction_of.
  destruct (restrict_to a) as [[key cs]|]; [|done].
  destruct cs as [|c0 cs]; [intros [= <-]; by left|].
  destruct (isinstance_str c0); cbn [negb]; [|intros [= <-]; auto].
  destruct (obs c !! key) as [col|]; [|intros [= <-]; eauto].
  destruct (first_unknown col (c0 :: cs)) as [bad|]; [intros [= <-]; eauto 6|].
  cbv zeta. unfold getitem_rows, getitem_cols.
  case_decide; [|intros [= <-]; by left].
  cbn [sp_shape fst snd]. case_decide; [done | intros [= <-]; by left].
Qed.

Lemma backend_groups_error a adj e :
  backend_groups a adj = inl e ->
  e = IndexError \/ (exists what, e = BackendError what) \/
  e = ValueError FlavorNeedsToBe.
Proof.
  unfold backend_groups, from_backend.
  case_bool_decide; [destruct (find_partition _ _ _ _); [intros [= <-]; eauto | done]|].
  case_bool_decide; [destruct (community_multilevel _ _); [intros [= <-]; eauto | done]|].
  case_bool_decide; [|intros [= <-]; auto].
  destruct (best_partition _) as [what|p]; [intros [= <-]; eauto|].
  intros ->%densify_error. by left.
Qed.

Lemma label_column_of_error a c restriction groups e :
  label_column_of a c restriction groups = inl e ->
  e = TypeError \/ (exists key, e = KeyError key) \/ e = ValueError LengthMismatch.
Proof.
  unfold label_column_of. destruct restriction as [[[key cs] idx]|]; [|done].
  destruct (obs c !! key) as [col|]; [|intros [= <-]; eauto].
  destruct (str_join "-" cs) as [e'|joined] eqn:Hj.
  { intros [= <-]. apply str_join_error in Hj as ->. by left. }
  unfold iloc_setitem. case_decide; [done | intros [= <-]; auto].
Qed.

End Outcome.

(** ** Validation errors *)

Section ValidationClaims.
Context `{Backends}.

(** C5: a call whose [partition_type] is not [None] while [flavor] is not
    ['vtraag'] raises the [ValueError] of line 90; the container is as it
    was and the only event is the opening log line, so nothing else has
    been done. *)
Theorem partition_type_requires_vtraag (a : args) (c : AnnData) :
  flavor a <> "vtraag" -> partition_type a <> None ->
  louvain a c = (c, [LogInfo MsgRunning], inl (ValueError PartitionTypeNeedsVtraag)).
Proof.
  intros Hf Hp. rewrite louvain_is_outcome. unfold louvain_outcome, validated.
  rewrite bool_decide_true by done.
  destruct (partition_type a); [done | by destruct Hp].
Qed.

(** C9: a call that raises leaves the caller's container as it was: no
    label column and no parameter record has been written. *)
Theorem error_leaves_container_unmodified (a : args) (c c' : AnnData) ev e :
  louvain a c = (c', ev, inl e) ->
  c' = c /\ obs c' = obs c /\ uns c' = uns c.
Proof. intros Hrun. apply louvain_error_frame in Hrun as ->. done. Qed.

Lemma need_neighbors_only_from_source (a : args) (c c' : AnnData) ev :
  louvain a c = (c', ev, inl (ValueError NeedNeighbors)) ->
  adjacency_source a c = inl (ValueError NeedNeighbors).
Proof.
  rewrite louvain_is_outcome. unfold louvain_outcome, validated.
  destruct (bool_decide _ && negb _); [done|].
  destruct (adjacency_source a c) as [e|adj]; [by intros [= _ _ ->]|].
  destruct (restriction_of a c adj) as [e|[restriction adj']] eqn:Hr.
  { intros [= _ _ ->]. apply restriction_of_error in Hr.
    by destruct Hr as [?|[[? ?]|[?|(? & ? & ?)]]]. }
  destruct (backend_groups a adj') as [e|groups] eqn:Hg.
  { intros [= _ _ ->]. apply backend_groups_error in Hg.
    by destruct Hg as [?|[[? ?]|?]]. }
  destruct (label_column_of a c restriction groups) as [e|[key col]] eqn:Hl.
  { intros [= _ _ ->]. apply label_column_of_error in Hl.
    by destruct Hl as [?|[[? ?]|?]]. }
  by case_decide.
Qed.

(** C4: with no [adjacency] argument and no [neighbors] entry the call
    raises a [ValueError] (the one of line 94 once the partition-type guard
    is passed); the [ValueError] of line 94 is raised in no other case; and
    with no [adjacency] argument and a [neighbors] entry, the call is the
    call with the stored connectivities as [adjacency]. *)
Theorem missing_adjacency_source (a : args) (c : AnnData) :
  (adjacency a = None -> uns c !! "neighbors" = None ->
   louvain a c =
     (c, [LogInfo MsgRunning],
      inl (ValueError
             (if bool_decide (flavor a <> "vtraag") && negb (is_None (partition_type a))
              then PartitionTypeNeedsVtraag else NeedNeighbors)))) /\
  (forall c' ev, louvain a c = (c', ev, inl (ValueError NeedNeighbors)) ->
                 adjacency a = None /\ uns c !! "neighbors" = None) /\
  (forall d m, adjacency a = None -> uns c !! "neighbors" = Some d ->
               d !! "connectivities" = Some (UnsMatrix m) ->
               louvain a c = louvain (with_adjacency (Some m) a) c).
Proof.
  split; [|split].
  - intros Ha Hn. rewrite louvain_is_outcome.
    unfold louvain_outcome, validated, adjacency_source. rewrite Ha, Hn.
    by destruct (bool_decide _ && negb _).
  - intros c' ev Hrun%need_neighbors_only_from_source. revert Hrun.
    unfold adjacency_source. destruct (adjacency a); [done|].
    destruct (uns c !! "neighbors") as [d|]; [|done].
    by destruct (d !! "connectivities") as [[?|? ?]|].
  - intros d m Ha Hn Hd. rewrite !louvain_is_outcome.
    unfold louvain_outcome, validated, adjacency_source.
    cbn [with_adjacency adjacency flavor partition_type copy].
    rewrite Ha, Hn, Hd. reflexivity.
Qed.

(** C10: the string check looks at [restrict_categories[0]] only.  With an
    empty list of categories a call that has passed the first two guards
    stops with an [IndexError], before any backend is called; and when the
    first category is a string, the [ValueError] of line 101 is not raised,
    whatever the other categories are. *)
Theorem empty_restriction_categories (a : args) (c : AnnData) (key : string) :
  (restrict_to a = Some (key, []) ->
   flavor a = "vtraag" \/ partition_type a = None ->
   (exists adj, adjacency_source a c = inr adj) ->
   louvain a c = (c, [LogInfo MsgRunning], inl IndexError)) /\
  (forall s rest c' ev,
     restrict_to a = Some (key, PStr s :: rest) ->
     louvain a c <> (c', ev, inl (ValueError UseStringsForCategories))).
Proof.
  split.
  - intros Hr Hguard [adj Hadj]. rewrite louvain_is_outcome.
    unfold louvain_outcome, validated.
    replace (bool_decide _ && negb _) with false.
    + rewrite Hadj. unfold restriction_of. by rewrite Hr.
    + destruct Hguard as [-> | ->]; [done|]. cbn. by rewrite andb_false_r.
  - intros s rest c' ev Hr. rewrite louvain_is_outcome.
    unfold louvain_outcome, validated.
    destruct (bool_decide _ && negb _); [done|].
    destruct (adjacency_source a c) as [e|adj] eqn:Hadj.
    { intros [= _ _ ->]. revert Hadj. unfold adjacency_source.
      destruct (adjacency a); [done|].
      destruct (uns c !! "neighbors") as [d|]; [|done].
      by destruct (d !! "connectivities") as [[?|? ?]|]. }
    destruct (restriction_of a c adj) as [e|[restriction adj']] eqn:Hres.
    { intros [= _ _ ->]. revert Hres. unfold restriction_of. rewrite Hr.
      cbn [isinstance_str negb].
      destruct (obs c !! key) as [col|]; [|done].
      destruct (first_unknown col _); [done|]. cbv zeta.
      unfold getitem_rows, getitem_cols. case_decide; [|done].
      cbn [sp_shape fst snd]. by case_decide. }
    destruct (backend_groups a adj') as [e|groups] eqn:Hg.
    { intros [= _ _ ->]. apply backend_groups_error in Hg.
    by destruct Hg as [?|[[? ?]|?]]. }
    destruct (label_column_of a c restriction groups) as [e|[k col]] eqn:Hl.
    { intros [= _ _ ->]. apply label_column_of_error in Hl.
    by destruct Hl as [?|[[? ?]|?]]. }
    by case_decide.
Qed.

(** C3, as the code has it: when the first category is not a string, or
    some category is not among the categories of the column
    [adata.obs[key]], the call raises a [ValueError] before any backend is
    called.  (A [neighbors] entry is taken to hold its connectivities.) *)
Theorem invalid_restriction_category (a : args) (c : AnnData) key cs :
  restrict_to a = Some (key, cs) ->
  neighbors_ok c ->
  ((exists c0 rest, cs = c0 :: rest /\ isinstance_str c0 = false) \/
   (exists col x, obs c !! key = Some col /\ x ∈ cs /\ x ∉ cat_categories col)) ->
  exists msg, louvain a c = (c, [LogInfo MsgRunning], inl (ValueError msg)).
Proof.
  intros Hr Hn Hbad. rewrite louvain_is_outcome. unfold louvain_outcome, validated.
  destruct (bool_decide _ && negb _); [eauto|].
  assert (adjacency_source a c = inl (ValueError NeedNeighbors) \/
          exists adj, adjacency_source a c = inr adj) as [-> | [adj ->]]; [|eauto|].
  { unfold adjacency_source. destruct (adjacency a); [eauto|].
    destruct (uns c !! "neighbors") as [d|] eqn:Hd; [|eauto].
    destruct (Hn d Hd) as [m ->]. eauto. }
  unfold restriction_of. rewrite Hr.
  destruct cs as [|c0 cs].
  { destruct Hbad as [(? & ? & ? & _) | (? & x & _ & Hx & _)]; [done|].
    by apply elem_of_nil in Hx. }
  destruct (isinstance_str c0) eqn:Hc0; cbn [negb]; [|eauto].
  destruct Hbad as [(c0' & rest & [= <- <-] & Hns) | (col & x & Hcol & Hx & Hnot)];
    [congruence|].
  rewrite Hcol. destruct (first_unknown col (c0 :: cs)) as [bad|] eqn:Hfirst; [eauto|].
  apply first_unknown_None in Hfirst. rewrite Forall_forall in Hfirst.
  by destruct Hnot; apply Hfirst.
Qed.

End ValidationClaims.

(** ** The validation claims on the fixtures *)

Ltac in_list := apply list_elem_of_In; cbn; tauto.

Ltac not_in_list :=
  let Hin := fresh in intros Hin%list_elem_of_In; cbn in Hin; intuition congruence.

Lemma neighbors_ok_toy : neighbors_ok toy_adata.
Proof.
  intros d. unfold toy_adata. cbn [uns]. rewrite lookup_singleton_eq.
  intros [= <-]. eexists. apply lookup_singleton_eq.
Qed.

Lemma partition_type_requires_vtraag_witness :
  flavor igraph_with_partition_type <> "vtraag" /\
  partition_type igraph_with_partition_type <> None /\
  run_toy igraph_with_partition_type toy_adata
  = (toy_adata, [LogInfo MsgRunning], inl (ValueError PartitionTypeNeedsVtraag)).
Proof.
  split; [done|]. split; [done|].
  apply (@partition_type_requires_vtraag toy_backends); done.
Defined.

Lemma error_leaves_container_unmodified_witness :
  exists c' ev,
    run_toy unknown_flavor toy_adata = (c', ev, inl (ValueError FlavorNeedsToBe)) /\
    (c' = toy_adata /\ obs c' = obs toy_adata /\ uns c' = uns toy_adata).
Proof.
  eexists _, _. split; [vm_compute; reflexivity|].
  eapply (@error_leaves_container_unmodified toy_backends unknown_flavor).
  vm_compute; reflexivity.
Defined.

Lemma missing_adjacency_source_witness :
  run_toy default_args no_neighbors_adata
  = (no_neighbors_adata, [LogInfo MsgRunning], inl (ValueError NeedNeighbors)) /\
  run_toy default_args toy_adata
  = run_toy (with_adjacency (Some (ones 5)) default_args) toy_adata.
Proof.
  split.
  - destruct (@missing_adjacency_source toy_backends default_args no_neighbors_adata)
      as (Hnone & _ & _).
    apply Hnone; reflexivity.
  - destruct (@missing_adjacency_source toy_backends default_args toy_adata)
      as (_ & _ & Hstored).
    apply (Hstored {[ "connectivities" := UnsMatrix (ones 5) ]}); reflexivity.
Defined.

Lemma empty_restriction_categories_witness :
  run_toy (restricted_to "cell_type" []) toy_adata
  = (toy_adata, [LogInfo MsgRunning], inl IndexError).
Proof.
  destruct (@empty_restriction_categories toy_backends
              (restricted_to "cell_type" []) toy_adata "cell_type") as (Hempty & _).
  apply Hempty; [reflexivity | by left | by eexists].
Defined.

Lemma invalid_restriction_category_witness :
  (exists msg, run_toy (restricted_to "cell_type" [PInt 1; PStr "A"]) toy_adata
               = (toy_adata, [LogInfo MsgRunning], inl (ValueError msg))) /\
  (exists msg, run_toy (restricted_to "cell_type" [PStr "A"; PStr "Z"]) toy_adata
               = (toy_adata, [LogInfo MsgRunning], inl (ValueError msg))).
Proof.
  split.
  - apply (@invalid_restriction_category toy_backends _ toy_adata "cell_type"
             [PInt 1; PStr "A"]); [reflexivity | apply neighbors_ok_toy |].
    left. by exists (PInt 1), [PStr "A"].
  - apply (@invalid_restriction_category toy_backends _ toy_adata "cell_type"
             [PStr "A"; PStr "Z"]); [reflexivity | apply neighbors_ok_toy |].
    right. exists cell_type, (PStr "Z"). split; [reflexivity|].
    split; [in_list | not_in_list].
Defined.

(** C3 as stated fails: an integer category after the first one, known
    to the column, passes both checks; the call goes on to the backend and
    stops at line 163 with a [TypeError]. *)
Lemma non_string_category_not_rejected :
  isinstance_str (PInt 1) = false /\
  PInt 1 ∈ [PStr "A"; PInt 1] /\
  run_toy (restricted_to "batch" [PStr "A"; PInt 1]) mixed_adata
  = (mixed_adata,
     [LogInfo MsgRunning; LogInfo MsgUsingLouvainPackage; SetRngSeed 0;
      FindPartition (get_igraph_from_adjacency (ones 4) true)
        RBConfigurationVertexPartition ∅],
     inl TypeError).
Proof. split; [done|]. split; [in_list|]. vm_compute. reflexivity. Qed.

(** ** Lists, masks and distinct values *)

Lemma length_isin column values : length (isin column values) = length column.
Proof. unfold isin. by rewrite length_map. Qed.

Lemma isin_lookup column values i v :
  column !! i = Some v -> isin column values !! i = Some (bool_decide (v ∈ values)).
Proof. intros Hv. unfold isin. by rewrite list_lookup_fmap, Hv. Qed.

Lemma length_iloc_assign mask old new : length (iloc_assign mask old new) = length old.
Proof.
  revert old new. induction mask as [|b mask IH]; intros [|x old] new; try done.
  cbn [iloc_assign]. destruct b; [destruct new|]; cbn [length]; by rewrite IH.
Qed.

(** A position that the mask does not select keeps its item. *)
Lemma iloc_assign_outside mask old new i :
  mask !! i = Some false -> iloc_assign mask old new !! i = old !! i.
Proof.
  revert old new i. induction mask as [|b mask IH]; intros old new i; [done|].
  destruct old as [|x old]; [by destruct i|].
  destruct i as [|i]; cbn [iloc_assign].
  - intros [= ->]. done.
  - intros Hi. change ((b :: mask) !! S i) with (mask !! i) in Hi.
    destruct b; [destruct new|]; apply (IH old _ i Hi).
Qed.

(** A selected position takes the item of [new] whose rank is the number
    of selected positions before it. *)
Lemma iloc_assign_inside mask old new i :
  length mask = length old -> length new = count_true mask ->
  mask !! i = Some true ->
  exists y, new !! count_true (take i mask) = Some y /\
            iloc_assign mask old new !! i = Some y.
Proof.
  revert old new i. induction mask as [|b mask IH]; intros old new i; [done|].
  destruct old as [|x old]; [done|]. intros [= Hlen].
  destruct i as [|i]; cbn [iloc_assign count_true take].
  - intros Hnew [= ->]. destruct new as [|y new]; [done|]. by exists y.
  - intros Hnew Hi. change ((b :: mask) !! S i) with (mask !! i) in Hi.
    destruct b.
    + destruct new as [|y new]; [done|]. injection Hnew as Hnew.
      destruct (IH old new i Hlen Hnew Hi) as (z & Hz & Hz'). by exists z.
    + destruct (IH old new i Hlen Hnew Hi) as (z & Hz & Hz'). by exists z.
Qed.

(** Every new item lands somewhere. *)
Lemma iloc_assign_new mask old new y :
  length mask = length old -> length new = count_true mask ->
  y ∈ new -> y ∈ iloc_assign mask old new.
Proof.
  revert old new. induction mask as [|b mask IH]; intros old new.
  { intros _ Hnew Hy. destruct new; [by apply elem_of_nil in Hy | done]. }
  destruct old as [|x old]; [done|]. intros [= Hlen]. cbn [iloc_assign count_true].
  destruct b.
  - destruct new as [|z new]; [done|]. intros [= Hnew] Hy.
    apply elem_of_cons in Hy as [-> | Hy]; [apply list_elem_of_here|].
    apply list_elem_of_further. by apply IH.
  - intros Hnew Hy. apply list_elem_of_further. by apply IH.
Qed.

Lemma pd_unique_elem_of l x : x ∈ pd_unique l <-> x ∈ l.
Proof.
  induction l as [|y l IH]; [done|]. cbn [pd_unique].
  rewrite !elem_of_cons, list_elem_of_filter, IH.
  destruct (decide (x = y)); tauto.
Qed.

Lemma pd_unique_NoDup l : NoDup (pd_unique l).
Proof.
  induction l as [|y l IH]; [constructor|]. cbn [pd_unique]. constructor.
  - rewrite list_elem_of_filter. by intros [? _].
  - by apply NoDup_filter.
Qed.

Lemma natsort_insert_Permutation x l : natsort_insert x l ≡ₚ x :: l.
Proof.
  induction l as [|y l IH]; [done|]. cbn [natsort_insert].
  destruct (natural_leb x y); [done|]. rewrite IH. apply Permutation_swap.
Qed.

Lemma natsorted_Permutation l : natsorted l ≡ₚ l.
Proof.
  induction l as [|x l IH]; [done|]. cbn [natsorted foldr].
  fold (natsorted l). by rewrite natsort_insert_Permutation, IH.
Qed.

Lemma length_np_unique groups : length (np_unique groups) = length (remove_dups groups).
Proof. unfold np_unique. by rewrite merge_sort_Permutation. Qed.

Lemma n_distinct_NoDup `{Countable A} (l k : list A) :
  NoDup k -> (forall x, x ∈ k <-> x ∈ l) -> n_distinct l = length k.
Proof.
  intros Hk Hkl. unfold n_distinct.
  rewrite <-(size_list_to_set (C:=gset A) k) by done. f_equal.
  apply set_eq. intros x. by rewrite !elem_of_list_to_set, Hkl.
Qed.

Lemma n_distinct_np_unique groups : length (np_unique groups) = n_distinct groups.
Proof.
  rewrite length_np_unique. symmetry. apply n_distinct_NoDup.
  - apply NoDup_remove_dups.
  - intros x. apply elem_of_remove_dups.
Qed.

Lemma n_distinct_pd_unique l : length (pd_unique l) = n_distinct l.
Proof.
  symmetry. apply n_distinct_NoDup; [apply pd_unique_NoDup|].
  intros x. apply pd_unique_elem_of.
Qed.

Lemma n_distinct_fmap_le `{Countable A, Countable B} (f : A -> B) `{!Inj (=) (=) f}
    (l : list A) (k : list B) :
  (forall x, x ∈ l -> f x ∈ k) -> n_distinct l <= n_distinct k.
Proof.
  intros Hsub.
  rewrite (n_distinct_NoDup l (remove_dups l) (NoDup_remove_dups l)
             (fun x => elem_of_remove_dups l x)).
  rewrite (n_distinct_NoDup k (remove_dups k) (NoDup_remove_dups k)
             (fun x => elem_of_remove_dups k x)).
  rewrite <-(length_fmap f). apply submseteq_length, NoDup_submseteq.
  - apply NoDup_fmap_2; [done | apply NoDup_remove_dups].
  - intros y (x & -> & Hx)%list_elem_of_fmap.
    rewrite elem_of_remove_dups in Hx. apply elem_of_remove_dups. auto.
Qed.

(** ** The natural order is a total preorder *)

Lemma N_compare_spec : compare_spec N.compare.
Proof.
  split.
  - apply N.compare_refl.
  - apply N.compare_eq.
  - intros a b. apply N.compare_antisym.
  - intros a b c. rewrite !N.compare_lt_iff. apply N.lt_trans.
Qed.

Lemma string_compare_refl s : String.compare s s = Eq.
Proof.
  induction s as [|a s IH]; [done|]. cbn [String.compare].
  unfold Ascii.compare. by rewrite N.compare_refl.
Qed.

Lemma string_compare_spec : compare_spec String.compare.
Proof.
  split.
  - apply string_compare_refl.
  - apply String.compare_eq_iff.
  - intros a b. apply String.compare_antisym.
  - intros a b c Hab Hbc.
    assert (String.le a c) as Hac.
    { transitivity b; unfold String.le, String.leb; [by rewrite Hab | by rewrite Hbc]. }
    unfold String.le, String.leb in Hac.
    destruct (String.compare a c) eqn:Hcmp; [|done..].
    apply String.compare_eq_iff in Hcmp as ->.
    rewrite String.compare_antisym, Hab in Hbc. done.
Qed.

Lemma chunk_compare_spec : compare_spec chunk_compare.
Proof.
  destruct N_compare_spec as [Nr Ne Na Nt], string_compare_spec as [Sr Se Sa St].
  split.
  - intros [s|n]; cbn; auto.
  - intros [s|n] [t|m]; cbn; try done; intros Hc; f_equal; auto.
  - intros [s|n] [t|m]; cbn; auto.
  - intros [s|n] [t|m] [u|k]; cbn; try done; eauto.
Qed.

Lemma key_compare_spec : compare_spec key_compare.
Proof.
  destruct chunk_compare_spec as [Cr Ce Ca Ct].
  split.
  - intros k. induction k as [|a k IH]; [done|]. cbn. by rewrite Cr.
  - intros k1. induction k1 as [|a k1 IH]; intros [|b k2]; cbn; try done.
    destruct (chunk_compare a b) eqn:Hab; try done.
    intros Hk. apply Ce in Hab as ->. f_equal. by apply IH.
  - intros k1. induction k1 as [|a k1 IH]; intros [|b k2]; cbn; try done.
    rewrite (Ca a b). destruct (chunk_compare a b); cbn; auto.
  - intros k1. induction k1 as [|a k1 IH]; intros [|b k2] [|c k3]; cbn; try done.
    destruct (chunk_compare a b) eqn:Hab; try done.
    + apply Ce in Hab as ->. destruct (chunk_compare b c); try done. apply IH.
    + destruct (chunk_compare b c) eqn:Hbc; try done.
      * apply Ce in Hbc as <-. by rewrite Hab.
      * by rewrite (Ct a b c).
Qed.

Lemma natural_leb_total s t : natural_leb s t = false -> natural_leb t s = true.
Proof.
  unfold natural_leb. rewrite (cmp_antisym _ key_compare_spec (natsort_key s)).
  by destruct (key_compare (natsort_key s) (natsort_key t)).
Qed.

#[global] Instance natural_le_trans : Transitive natural_le.
Proof.
  destruct key_compare_spec as [Kr Ke Ka Kt].
  intros s t u. unfold natural_le, natural_leb.
  destruct (key_compare (natsort_key s) (natsort_key t)) eqn:Hst; [|clear Ka|done].
  - apply Ke in Hst as ->. done.
  - destruct (key_compare (natsort_key t) (natsort_key u)) eqn:Htu; [| |done].
    + apply Ke in Htu as <-. by rewrite Hst.
    + by rewrite (Kt _ _ _ Hst Htu).
Qed.

Lemma natsort_insert_sorted x l :
  StronglySorted natural_le l -> StronglySorted natural_le (natsort_insert x l).
Proof.
  induction 1 as [|y l Hl IH Hy]; cbn [natsort_insert].
  { repeat constructor. }
  destruct (natural_leb x y) eqn:Hxy.
  - constructor; [by constructor|]. constructor; [done|].
    eapply Forall_impl; [exact Hy|]. intros z Hz. by transitivity y.
  - constructor; [done|].
    rewrite natsort_insert_Permutation. constructor; [|done].
    by apply natural_leb_total.
Qed.

Lemma natsorted_sorted l : StronglySorted natural_le (natsorted l).
Proof.
  induction l as [|x l IH]; [constructor|].
  cbn [natsorted foldr]. by apply natsort_insert_sorted.
Qed.

Lemma natsorted_elem_of l x : x ∈ natsorted l <-> x ∈ l.
Proof. by rewrite natsorted_Permutation. Qed.

Lemma natsorted_NoDup l : NoDup l -> NoDup (natsorted l).
Proof. by rewrite natsorted_Permutation. Qed.

Lemma length_natsorted l : length (natsorted l) = length l.
Proof. by rewrite natsorted_Permutation. Qed.

(** ** The label column of a successful call *)

Lemma obs_annotated a key col c : obs (annotated a key col c) !! key = Some col.
Proof. unfold annotated, set_uns, set_obs. cbn [obs]. apply lookup_insert_eq. Qed.

Lemma str_join_strings sep items joined :
  str_join sep items = inr joined ->
  exists ss, items = map PStr ss /\ joined = String.concat sep ss.
Proof.
  revert joined. induction items as [|[s|z] rest IH]; intros joined; cbn [str_join].
  - intros [= <-]. by exists [].
  - destruct rest as [|x rest]; [intros [= <-]; by exists [s]|].
    destruct (str_join sep (x :: rest)) as [e|r]; [done|]. intros [= <-].
    destruct (IH r eq_refl) as (ss & Hss & ->). exists (s :: ss).
    split; [by rewrite Hss|]. destruct ss as [|s' ss]; [done|]. done.
  - done.
Qed.

Section Labels.
Context `{Backends}.

Lemma validated_restriction a c restriction adj :
  validated a c = inr (restriction, adj) ->
  match restrict_to a with
  | None => restriction = None
  | Some (key, cs) =>
      exists col, obs c !! key = Some col /\
                  restriction = Some (key, cs, isin (cat_values col) cs)
  end.
Proof.
  unfold validated. destruct (bool_decide _ && negb _); [done|].
  destruct (adjacency_source a c) as [e|adj0]; [done|].
  unfold restriction_of. destruct (restrict_to a) as [[key cs]|]; [|by intros [= <- _]].
  destruct cs as [|c0 cs]; [done|].
  destruct (negb (isinstance_str c0)); [done|].
  destruct (obs c !! key) as [col|]; [|done].
  destruct (first_unknown col (c0 :: cs)); [done|]. cbv zeta.
  destruct (getitem_rows _ _) as [e|adj1]; [done|].
  destruct (getitem_cols _ _) as [e|adj2]; [done|].
  intros [= <- _]. by exists col.
Qed.

(** What a successful restricted call has computed. *)
Lemma louvain_restricted_success a c c' ev out key cs :
  restrict_to a = Some (key, cs) ->
  louvain a c = (c', ev, inr out) ->
  exists col adj groups ss labels,
    obs c !! key = Some col /\
    validated a c = inr (Some (key, cs, isin (cat_values col) cs), adj) /\
    backend_groups a adj = inr groups /\
    cs = map PStr ss /\
    length groups = count_true (isin (cat_values col) cs) /\
    labels = iloc_assign (isin (cat_values col) cs) (map astype_U (cat_values col))
               (map (fun g => (String.concat "-" ss +:+ ",") +:+ g) (map pretty groups)) /\
    obs (result_container c' out) !! output_key a
    = Some {| cat_values := map PStr labels;
              cat_categories := map PStr (natsorted (pd_unique labels)) |}.
Proof.
  intros Hr (restriction & adj & groups & k & colout & Hval & Hg & Hcol & Hlen & _ & Hres & _)
    %louvain_success.
  pose proof (validated_restriction _ _ _ _ Hval) as Hrestr. rewrite Hr in Hrestr.
  destruct Hrestr as (col & Hobs & ->).
  revert Hcol. unfold label_column_of. rewrite Hobs.
  destruct (str_join "-" cs) as [e|joined] eqn:Hj; [done|].
  apply str_join_strings in Hj as (ss & Hcs & ->).
  unfold iloc_setitem. case_decide as Hcount; [|done]. intros [= <- <-].
  exists col, adj, groups, ss. eexists. repeat split; try done.
  - by rewrite !length_map in Hcount.
  - rewrite Hres. unfold output_key. rewrite Hr. apply obs_annotated.
Qed.

(** C1, as the code has it: after a successful restricted call, a sample
    outside the restricted categories has in the output column the string
    cast of its value in the restriction column [adata.obs[key]] (line
    162), whatever the output column held before. *)
Theorem unrestricted_samples_keep_restriction_label (a : args) (c c' : AnnData)
    ev out key cs :
  restrict_to a = Some (key, cs) ->
  louvain a c = (c', ev, inr out) ->
  exists col labels,
    obs c !! key = Some col /\
    labels_of (result_container c' out) (output_key a) = Some labels /\
    length labels = length (cat_values col) /\
    forall i v, cat_values col !! i = Some v -> v ∉ cs ->
                labels !! i = Some (PStr (astype_U v)).
Proof.
  intros Hr (col & adj & groups & ss & labels & Hobs & _ & _ & _ & _ & -> & Hout)
    %(louvain_restricted_success _ _ _ _ _ _ _ Hr).
  exists col, (map PStr (iloc_assign (isin (cat_values col) cs)
                           (map astype_U (cat_values col))
                           (map (fun g => (String.concat "-" ss +:+ ",") +:+ g)
                                (map pretty groups)))).
  split; [done|]. split; [unfold labels_of; by rewrite Hout|].
  split; [by rewrite !length_map, length_iloc_assign, length_map|].
  intros i v Hv Hnot.
  rewrite list_lookup_fmap, iloc_assign_outside.
  - by rewrite list_lookup_fmap, Hv.
  - rewrite (isin_lookup _ _ _ v) by done. by rewrite bool_decide_false.
Qed.

(** C2, as the code has it: after a successful restricted call, the label
    of a sample of the restricted categories is the categories joined by
    ['-'] in the order they were given, then [','], then the cluster id
    that the backend gave to that sample (the samples of the sub-graph are
    the restricted ones in their order). *)
Theorem restricted_samples_get_prefixed_label (a : args) (c c' : AnnData)
    ev out key cs :
  restrict_to a = Some (key, cs) ->
  louvain a c = (c', ev, inr out) ->
  exists col adj groups ss labels,
    obs c !! key = Some col /\
    validated a c = inr (Some (key, cs, isin (cat_values col) cs), adj) /\
    backend_groups a adj = inr groups /\
    cs = map PStr ss /\
    labels_of (result_container c' out) (output_key a) = Some labels /\
    forall i v, cat_values col !! i = Some v -> v ∈ cs ->
      exists g,
        groups !! count_true (take i (isin (cat_values col) cs)) = Some g /\
        labels !! i = Some (PStr ((String.concat "-" ss +:+ ",") +:+ pretty g)).
Proof.
  intros Hr (col & adj & groups & ss & labels & Hobs & Hval & Hg & Hcs & Hlen & -> & Hout)
    %(louvain_restricted_success _ _ _ _ _ _ _ Hr).
  exists col, adj, groups, ss. eexists.
  split; [done|]. split; [done|]. split; [done|]. split; [done|].
  split; [unfold labels_of; by rewrite Hout|].
  intros i v Hv Hin. cbn [cat_values].
  destruct (iloc_assign_inside (isin (cat_values col) cs)
              (map astype_U (cat_values col))
              (map (fun g => (String.concat "-" ss +:+ ",") +:+ g) (map pretty groups)) i)
    as (y & Hy & Hlabel).
  - by rewrite length_isin, length_map.
  - by rewrite !length_map.
  - rewrite (isin_lookup _ _ _ v) by done. by rewrite bool_decide_true.
  - rewrite !list_lookup_fmap in Hy.
    destruct (groups !! _) as [g|] eqn:Hgi; [|done]. injection Hy as <-.
    exists g. split; [done|]. by rewrite list_lookup_fmap, Hlabel.
Qed.

End Labels.

Lemma np_unique_elem_of groups x : x ∈ np_unique groups <-> x ∈ groups.
Proof. unfold np_unique. by rewrite merge_sort_Permutation, elem_of_remove_dups. Qed.

Lemma np_unique_NoDup groups : NoDup (np_unique groups).
Proof. unfold np_unique. rewrite merge_sort_Permutation. apply NoDup_remove_dups. Qed.

#[global] Instance prefixed_label_inj (prefix : string) :
  Inj (=) (=) (fun g : Z => prefix +:+ pretty g).
Proof. intros g1 g2 Heq. by apply (inj (String.app prefix)), (inj pretty) in Heq. Qed.

(** ** Printed cluster ids sort by value *)

Lemma pretty_N_char_digit d :
  (d < 10)%N ->
  is_digit (pretty_N_char d) = true /\ digit_value (pretty_N_char d) = d.
Proof.
  intros Hd.
  assert (d = 0 \/ d = 1 \/ d = 2 \/ d = 3 \/ d = 4 \/ d = 5 \/ d = 6 \/ d = 7 \/
          d = 8 \/ d = 9)%N as Hcases by lia.
  repeat (destruct Hcases as [-> | Hcases]; [by vm_compute|]). subst d. by vm_compute.
Qed.

Lemma natsort_chunks_pretty_N_go (x : N) (t : string) :
  (0 < x)%N ->
  natsort_chunks (pretty_N_go x t) (CText "") = CText "" :: natsort_chunks t (CNum x).
Proof.
  revert t. induction (N.lt_wf_0 x) as [x _ IH]. intros t Hx.
  rewrite pretty_N_go_step by done.
  destruct (pretty_N_char_digit (x `mod` 10)) as [Hdigit Hvalue];
    [by apply N.mod_lt|].
  destruct (decide (x `div` 10 = 0)%N) as [Hdiv | Hdiv].
  - rewrite Hdiv, pretty_N_go_0. cbn [natsort_chunks]. rewrite Hdigit, Hvalue.
    do 3 f_equal. rewrite (N.div_mod x 10) at 2 by done. lia.
  - rewrite IH; [|by apply N.div_lt|by apply N.neq_0_lt_0].
    cbn [natsort_chunks]. rewrite Hdigit, Hvalue.
    do 3 f_equal. rewrite (N.div_mod x 10) at 3 by done. lia.
Qed.

Lemma natsort_key_pretty_N (n : N) : natsort_key (pretty n) = [CText ""; CNum n].
Proof.
  unfold natsort_key, pretty, pretty_N. case_decide as Hn; [by subst|].
  rewrite natsort_chunks_pretty_N_go by lia. done.
Qed.

Lemma natsort_key_pretty_Z (z : Z) :
  (0 <= z)%Z -> natsort_key (pretty z) = [CText ""; CNum (Z.to_N z)].
Proof.
  destruct z as [|p|p]; [done| |lia]. intros _.
  apply (natsort_key_pretty_N (Npos p)).
Qed.

Lemma natural_le_pretty (y z : Z) :
  (0 <= y)%Z -> (y <= z)%Z -> natural_le (pretty y) (pretty z).
Proof.
  intros Hy Hyz. unfold natural_le, natural_leb.
  rewrite !natsort_key_pretty_Z by lia. cbn [key_compare chunk_compare String.compare].
  destruct (N.compare_spec (Z.to_N y) (Z.to_N z)); [done..|lia].
Qed.

(** Sorting a sorted list changes nothing. *)
Lemma natsorted_of_sorted l : StronglySorted natural_le l -> natsorted l = l.
Proof.
  induction 1 as [|x l Hl IH Hx]; [done|].
  cbn [natsorted foldr]. fold (natsorted l). rewrite IH.
  destruct l as [|y l]; [done|]. cbn [natsort_insert].
  by rewrite (Forall_inv Hx).
Qed.

Lemma np_unique_sorted groups : StronglySorted Z.le (np_unique groups).
Proof. unfold np_unique. apply StronglySorted_merge_sort; apply _. Qed.

Lemma natsorted_cluster_ids groups :
  Forall (fun g => 0 <= g)%Z groups ->
  natsorted (map pretty (np_unique groups)) = map pretty (np_unique groups).
Proof.
  intros Hpos. apply natsorted_of_sorted.
  assert (Forall (fun g => 0 <= g)%Z (np_unique groups)) as Hpos'.
  { apply Forall_forall. intros g Hg. rewrite np_unique_elem_of in Hg.
    by apply (proj1 (Forall_forall _ _) Hpos). }
  induction (np_unique_sorted groups) as [|g l Hl IH Hg]; [constructor|].
  apply Forall_cons in Hpos' as [Hg0 Hpos']. cbn [map]. constructor; [by apply IH|].
  rewrite Forall_fmap. apply Forall_forall. intros z Hz. cbn.
  apply natural_le_pretty; [done|]. rewrite Forall_forall in Hg. auto.
Qed.

Section Categories.
Context `{Backends}.

(** What a successful unrestricted call has computed. *)
Lemma louvain_unrestricted_success a c c' ev out :
  restrict_to a = None ->
  louvain a c = (c', ev, inr out) ->
  exists adj groups,
    validated a c = inr (None, adj) /\
    backend_groups a adj = inr groups /\
    obs (result_container c' out) !! output_key a
    = Some {| cat_values := map PStr (map pretty groups);
              cat_categories := map PStr (natsorted (map pretty (np_unique groups))) |}.
Proof.
  intros Hr (restriction & adj & groups & k & colout & Hval & Hg & Hcol & _ & _ & Hres & _)
    %louvain_success.
  pose proof (validated_restriction _ _ _ _ Hval) as Hrestr. rewrite Hr in Hrestr.
  subst restriction. injection Hcol as <- <-.
  exists adj, groups. split; [done|]. split; [done|].
  rewrite Hres. unfold output_key. rewrite Hr. apply obs_annotated.
Qed.

(** C6, as the code has it: after a successful call without restriction
    the output column has as many categories as the backend's membership
    vector has distinct ids; with a restriction it has at least as many,
    the labels kept by the samples outside the restriction being
    categories too. *)
Theorem category_count (a : args) (c c' : AnnData) ev out :
  louvain a c = (c', ev, inr out) ->
  exists restriction adj groups cats,
    validated a c = inr (restriction, adj) /\
    backend_groups a adj = inr groups /\
    categories_of (result_container c' out) (output_key a) = Some cats /\
    n_distinct groups <= length cats /\
    (restrict_to a = None -> length cats = n_distinct groups).
Proof.
  intros Hrun. destruct (restrict_to a) as [[key cs]|] eqn:Hr.
  - destruct (louvain_restricted_success _ _ _ _ _ _ _ Hr Hrun)
      as (col & adj & groups & ss & labels & Hobs & Hval & Hg & Hcs & Hlen & Hlab & Hout).
    exists (Some (key, cs, isin (cat_values col) cs)), adj, groups.
    eexists. split; [done|]. split; [done|].
    split; [unfold categories_of; by rewrite Hout|]. cbn [cat_categories].
    split; [|done].
    rewrite length_map, length_natsorted, n_distinct_pd_unique.
    apply (n_distinct_fmap_le (fun g : Z => (String.concat "-" ss +:+ ",") +:+ pretty g)).
    intros g Hin. rewrite Hlab. apply iloc_assign_new.
    + by rewrite length_isin, length_map.
    + by rewrite !length_map.
    + apply list_elem_of_fmap. exists (pretty g). split; [done|].
      by apply list_elem_of_fmap_2.
  - destruct (louvain_unrestricted_success _ _ _ _ _ Hr Hrun)
      as (adj & groups & Hval & Hg & Hout).
    exists None, adj, groups. eexists. split; [done|]. split; [done|].
    split; [unfold categories_of; by rewrite Hout|]. cbn [cat_categories].
    rewrite !length_map, length_natsorted, length_map, n_distinct_np_unique. done.
Qed.

(** C7: after a successful call the categories of the output column are
    the distinct labels of the column, each once, in natural order: a
    category is never after a later one, and ["2"] is before ["10"].
    Without restriction the labels are the printed cluster ids, and for
    non-negative ids the categories are the distinct ids in increasing
    order of their value. *)
Theorem categories_in_natural_order (a : args) (c c' : AnnData) ev out :
  louvain a c = (c', ev, inr out) ->
  exists labels cats,
    labels_of (result_container c' out) (output_key a) = Some (map PStr labels) /\
    categories_of (result_container c' out) (output_key a) = Some (map PStr cats) /\
    StronglySorted natural_le cats /\
    NoDup cats /\
    (forall s, s ∈ cats <-> s ∈ labels) /\
    (natural_le "2" "10" /\ ~ natural_le "10" "2") /\
    (restrict_to a = None ->
     exists groups,
       labels = map pretty groups /\
       (Forall (fun g => 0 <= g)%Z groups -> cats = map pretty (np_unique groups))).
Proof.
  intros Hrun. destruct (restrict_to a) as [[key cs]|] eqn:Hr.
  - destruct (louvain_restricted_success _ _ _ _ _ _ _ Hr Hrun)
      as (col & adj & groups & ss & labels & _ & _ & _ & _ & _ & _ & Hout).
    exists labels, (natsorted (pd_unique labels)).
    unfold labels_of, categories_of. rewrite Hout.
    split; [done|]. split; [done|]. split; [apply natsorted_sorted|].
    split; [apply natsorted_NoDup, pd_unique_NoDup|].
    split; [|done]. intros s. by rewrite natsorted_elem_of, pd_unique_elem_of.
  - destruct (louvain_unrestricted_success _ _ _ _ _ Hr Hrun)
      as (adj & groups & _ & _ & Hout).
    exists (map pretty groups), (natsorted (map pretty (np_unique groups))).
    unfold labels_of, categories_of. rewrite Hout.
    split; [done|]. split; [done|]. split; [apply natsorted_sorted|].
    split; [apply natsorted_NoDup, NoDup_fmap_2; [apply _ | apply np_unique_NoDup]|].
    split; [|split; [done|]].
    + intros s. rewrite natsorted_elem_of, !list_elem_of_fmap.
      by setoid_rewrite np_unique_elem_of.
    + intros _. exists groups. split; [done|]. apply natsorted_cluster_ids.
Qed.

End Categories.

(** ** The resolution with the multilevel backend *)

Section Resolution.
Context `{Backends}.

Lemma backend_groups_igraph_resolution a adj r :
  flavor a = "igraph" ->
  backend_groups (with_resolution r a) adj = backend_groups a adj.
Proof.
  intros Hf. unfold backend_groups. cbn [with_resolution flavor].
  rewrite Hf. rewrite bool_decide_false by done. reflexivity.
Qed.

Lemma backend_events_igraph a adj :
  flavor a = "igraph" ->
  backend_events a adj
  = (if is_None (resolution a) then [] else [LogWarn MsgResolutionNoEffect]) ++
    (if directed_of a then [] else [LogM MsgUndirected]) ++
    [CommunityMultilevel (graph_of a adj) (weights_of a adj)].
Proof.
  intros Hf. unfold backend_events. rewrite Hf.
  rewrite bool_decide_false by done. by rewrite bool_decide_true.
Qed.

(** C8: with [flavor='igraph'] a resolution does not make the call fail:
    the call raises an exception exactly when the same call without
    resolution raises it.  When the call without resolution completes, the
    call with a resolution completes too, it has logged the warning, its
    other events (the backend call with its arguments among them) are those
    of the call without resolution, and it has written the same labels. *)
Theorem igraph_resolution_only_warns (a : args) (c : AnnData) (r : Q) :
  flavor a = "igraph" ->
  (forall e, snd (louvain (with_resolution (Some r) a) c) = inl e <->
             snd (louvain (with_resolution None a) c) = inl e) /\
  (forall c0 ev0 out0,
     louvain (with_resolution None a) c = (c0, ev0, inr out0) ->
     exists c1 ev1 out1,
       louvain (with_resolution (Some r) a) c = (c1, ev1, inr out1) /\
       LogWarn MsgResolutionNoEffect ∈ ev1 /\
       filter (fun e => is_resolution_warning e = false) ev1 = ev0 /\
       obs (result_container c1 out1) = obs (result_container c0 out0)).
Proof.
  intros Hf.
  assert (forall r', flavor (with_resolution r' a) = "igraph") as Hf' by done.
  rewrite !louvain_is_outcome. unfold louvain_outcome.
  change (validated (with_resolution (Some r) a) c) with (validated a c).
  change (validated (with_resolution None a) c) with (validated a c).
  destruct (validated a c) as [e0|[restriction adj]]; [split; [done|by intros]|].
  rewrite !backend_groups_igraph_resolution by done.
  destruct (backend_groups a adj) as [e0|groups]; [split; [done|by intros]|].
  change (label_column_of (with_resolution (Some r) a) c restriction groups)
    with (label_column_of a c restriction groups).
  change (label_column_of (with_resolution None a) c restriction groups)
    with (label_column_of a c restriction groups).
  destruct (label_column_of a c restriction groups) as [e0|[key col]];
    [split; [done|by intros]|].
  case_decide as Hlen; [|split; [done|by intros]].
  cbn [snd]. split; [done|].
  intros c0 ev0 out0 [= <- <- <-].
  cbn [with_resolution copy]. do 3 eexists. split; [reflexivity|].
  rewrite !backend_events_igraph by done.
  cbn [with_resolution resolution is_None].
  change (directed_of (with_resolution (Some r) a)) with (directed_of a).
  change (directed_of (with_resolution None a)) with (directed_of a).
  change (graph_of (with_resolution (Some r) a) adj) with (graph_of a adj).
  change (graph_of (with_resolution None a) adj) with (graph_of a adj).
  change (weights_of (with_resolution (Some r) a) adj) with (weights_of a adj).
  change (weights_of (with_resolution None a) adj) with (weights_of a adj).
  split; [|split].
  - apply list_elem_of_further, list_elem_of_here.
  - by destruct (directed_of a).
  - by destruct (copy a).
Qed.

End Resolution.

(** ** The remaining claims on the fixtures *)

Lemma unrestricted_samples_keep_restriction_label_witness :
  let a := restricted_to "cell_type" [PStr "A"; PStr "B"] in
  let r := run_toy a toy_adata in
  exists col labels,
    obs toy_adata !! "cell_type" = Some col /\
    labels_of (result_container (fst (fst r)) None) (output_key a) = Some labels /\
    length labels = length (cat_values col) /\
    forall i v, cat_values col !! i = Some v -> v ∉ [PStr "A"; PStr "B"] ->
                labels !! i = Some (PStr (astype_U v)).
Proof.
  intros a r.
  apply (@unrestricted_samples_keep_restriction_label toy_backends a toy_adata
           (fst (fst r)) (snd (fst r)) None "cell_type" [PStr "A"; PStr "B"]);
    [reflexivity | vm_compute; reflexivity].
Defined.

(** C1 as stated fails: the sample at position 2 is outside the
    restriction and had the label ["old2"] under the output key; after the
    call it has the label ["C"] of the restriction column. *)
Lemma output_column_not_retained :
  let a := restricted_to "cell_type" [PStr "A"; PStr "B"] in
  let r := run_toy a relabelled_adata in
  snd r = inr None /\
  output_key a = "cell_type_R" /\
  labels_of relabelled_adata "cell_type"
  = Some [PStr "A"; PStr "B"; PStr "C"; PStr "A"; PStr "C"] /\
  (PStr "C" ∉ [PStr "A"; PStr "B"]) /\
  labels_of relabelled_adata "cell_type_R"
  = Some [PStr "old0"; PStr "old1"; PStr "old2"; PStr "old3"; PStr "old4"] /\
  labels_of (fst (fst r)) "cell_type_R"
  = Some [PStr "A-B,0"; PStr "A-B,1"; PStr "C"; PStr "A-B,0"; PStr "C"].
Proof.
  cbv zeta. split; [vm_compute; reflexivity|]. split; [reflexivity|].
  split; [vm_compute; reflexivity|]. split; [not_in_list|].
  split; vm_compute; reflexivity.
Qed.

Lemma restricted_samples_get_prefixed_label_witness :
  let a := restricted_to "cell_type" [PStr "B"; PStr "A"] in
  let r := run_toy a toy_adata in
  exists col adj groups ss labels,
    obs toy_adata !! "cell_type" = Some col /\
    validated a toy_adata
    = inr (Some ("cell_type", [PStr "B"; PStr "A"],
                 isin (cat_values col) [PStr "B"; PStr "A"]), adj) /\
    @backend_groups toy_backends a adj = inr groups /\
    [PStr "B"; PStr "A"] = map PStr ss /\
    labels_of (result_container (fst (fst r)) None) (output_key a) = Some labels /\
    forall i v, cat_values col !! i = Some v -> v ∈ [PStr "B"; PStr "A"] ->
      exists g,
        groups !! count_true (take i (isin (cat_values col) [PStr "B"; PStr "A"]))
        = Some g /\
        labels !! i = Some (PStr ((String.concat "-" ss +:+ ",") +:+ pretty g)).
Proof.
  intros a r.
  apply (@restricted_samples_get_prefixed_label toy_backends a toy_adata
           (fst (fst r)) (snd (fst r)) None "cell_type" [PStr "B"; PStr "A"]);
    [reflexivity | vm_compute; reflexivity].
Defined.

(** C2 as stated fails: the categories are joined in the order given,
    not in sorted order. *)
Lemma restricted_label_not_sorted :
  let a := restricted_to "cell_type" [PStr "B"; PStr "A"] in
  let r := run_toy a toy_adata in
  snd r = inr None /\
  labels_of (fst (fst r)) (output_key a)
  = Some [PStr "B-A,0"; PStr "B-A,1"; PStr "C"; PStr "B-A,0"; PStr "C"] /\
  spec_restricted_label ["B"; "A"] 0 = "A-B,0" /\
  "B-A,0" <> spec_restricted_label ["B"; "A"] 0.
Proof.
  cbv zeta. split; [vm_compute; reflexivity|]. split; [vm_compute; reflexivity|].
  split; [vm_compute; reflexivity|]. vm_compute. discriminate.
Qed.

Lemma category_count_witness :
  let r := run_toy default_args toy_adata in
  exists restriction adj groups cats,
    validated default_args toy_adata = inr (restriction, adj) /\
    @backend_groups toy_backends default_args adj = inr groups /\
    categories_of (result_container (fst (fst r)) None) (output_key default_args)
    = Some cats /\
    n_distinct groups <= length cats /\
    (restrict_to default_args = None -> length cats = n_distinct groups).
Proof.
  intros r.
  apply (@category_count toy_backends default_args toy_adata
           (fst (fst r)) (snd (fst r)) None).
  vm_compute; reflexivity.
Defined.

(** C6 as stated fails with a restriction: the backend returns two
    distinct ids, the output column has three categories. *)
Lemma restricted_category_count_differs :
  let a := restricted_to "cell_type" [PStr "A"; PStr "B"] in
  let r := run_toy a toy_adata in
  snd r = inr None /\
  (exists restriction,
     validated a toy_adata = inr (restriction, ones 3) /\
     @backend_groups toy_backends a (ones 3) = inr [0; 1; 0]%Z) /\
  n_distinct [0; 1; 0]%Z = 2 /\
  categories_of (fst (fst r)) (output_key a)
  = Some [PStr "A-B,0"; PStr "A-B,1"; PStr "C"].
Proof.
  cbv zeta. split; [vm_compute; reflexivity|].
  split; [eexists; split; vm_compute; reflexivity|].
  split; vm_compute; reflexivity.
Qed.

Lemma categories_in_natural_order_witness :
  let r := @louvain singleton_backends default_args eleven_cells in
  (exists labels cats,
     labels_of (result_container (fst (fst r)) None) (output_key default_args)
     = Some (map PStr labels) /\
     categories_of (result_container (fst (fst r)) None) (output_key default_args)
     = Some (map PStr cats) /\
     StronglySorted natural_le cats /\
     NoDup cats /\
     (forall s, s ∈ cats <-> s ∈ labels) /\
     (natural_le "2" "10" /\ ~ natural_le "10" "2") /\
     (restrict_to default_args = None ->
      exists groups,
        labels = map pretty groups /\
        (Forall (fun g => 0 <= g)%Z groups -> cats = map pretty (np_unique groups)))) /\
  categories_of (fst (fst r)) "louvain"
  = Some (map PStr ["0"; "1"; "2"; "3"; "4"; "5"; "6"; "7"; "8"; "9"; "10"]).
Proof.
  intros r. split.
  - apply (@categories_in_natural_order singleton_backends default_args eleven_cells
             (fst (fst r)) (snd (fst r)) None).
    vm_compute; reflexivity.
  - vm_compute; reflexivity.
Defined.

Lemma igraph_resolution_only_warns_witness :
  let a := igraph_args in
  flavor a = "igraph" /\
  (forall e, snd (run_toy (with_resolution (Some (1 # 2)) a) toy_adata) = inl e <->
             snd (run_toy (with_resolution None a) toy_adata) = inl e) /\
  (forall c0 ev0 out0,
     run_toy (with_resolution None a) toy_adata = (c0, ev0, inr out0) ->
     exists c1 ev1 out1,
       run_toy (with_resolution (Some (1 # 2)) a) toy_adata = (c1, ev1, inr out1) /\
       LogWarn MsgResolutionNoEffect ∈ ev1 /\
       filter (fun e => is_resolution_warning e = false) ev1 = ev0 /\
       obs (result_container c1 out1) = obs (result_container c0 out0)).
Proof.
  intros a. split; [reflexivity|].
  apply (@igraph_resolution_only_warns toy_backends a toy_adata (1 # 2)). reflexivity.
Defined.

Example igraph_resolution_run :
  let r := run_toy (with_resolution (Some (1 # 2)) igraph_args) toy_adata in
  snd r = inr None /\
  snd (fst r)
  = [LogInfo MsgRunning; LogWarn MsgResolutionNoEffect; LogM MsgUndirected;
     CommunityMultilevel (get_igraph_from_adjacency (ones 5) false) None;
     LogInfo MsgFinished; LogHint (MsgFound 2 "louvain")] /\
  uns (fst (fst r)) !! "louvain" = Some {[ "params" := UnsParams (Some (1 # 2)) 0 ]}.
Proof. cbv zeta. split; [|split]; vm_compute; reflexivity. Qed.

(** * Further properties of the wrapper *)

(** ** The shape of a run *)

Section Runs.
Context `{Backends}.

(** The key under which a successful call has written. *)
Lemma louvain_success_key a c c' ev out :
  louvain a c = (c', ev, inr out) ->
  exists restriction adj groups col,
    validated a c = inr (restriction, adj) /\
    backend_groups a adj = inr groups /\
    label_column_of a c restriction groups = inr (output_key a, col) /\
    length (cat_values col) = n_obs c /\
    ev = LogInfo MsgRunning :: backend_events a adj ++
           [LogInfo MsgFinished;
            LogHint (MsgFound (length (np_unique groups)) (output_key a))] /\
    result_container c' out = annotated a (output_key a) col c /\
    c' = (if copy a then c else annotated a (output_key a) col c) /\
    out = (if copy a then Some (annotated a (output_key a) col c) else None).
Proof.
  intros Hrun. pose proof Hrun as Hrun'. apply louvain_success in Hrun'
    as (restriction & adj & groups & key & col & Hval & Hg & Hcol & Hlen & Hev & Hres & Hc').
  assert (key = output_key a) as ->.
  { pose proof (validated_restriction _ _ _ _ Hval) as Hrestr.
    unfold output_key. revert Hcol. unfold label_column_of.
    destruct (restrict_to a) as [[k cs]|].
    - destruct Hrestr as (col0 & Hobs & ->). rewrite Hobs.
      destruct (str_join "-" cs); [done|].
      destruct (iloc_setitem _ _ _); [done|]. by intros [= <- _].
    - subst restriction. by intros [= <- _]. }
  exists restriction, adj, groups, col. repeat split; try done.
  revert Hrun. rewrite louvain_is_outcome. unfold louvain_outcome.
  rewrite Hval, Hg, Hcol. case_decide; [|done]. by intros [= _ _ <-].
Qed.

(** The events of any run: the opening line, then the events of the
    dispatch if validation has passed, then the two closing lines if the
    call has completed. *)
Lemma louvain_events a c c' ev r :
  louvain a c = (c', ev, r) ->
  (ev = [LogInfo MsgRunning] /\ exists e, validated a c = inl e /\ r = inl e) \/
  exists restriction adj,
    validated a c = inr (restriction, adj) /\
    ((ev = LogInfo MsgRunning :: backend_events a adj /\ exists e, r = inl e) \/
     (exists n key out,
        ev = LogInfo MsgRunning :: backend_events a adj ++
               [LogInfo MsgFinished; LogHint (MsgFound n key)] /\ r = inr out)).
Proof.
  rewrite louvain_is_outcome. unfold louvain_outcome.
  destruct (validated a c) as [e|[restriction adj]]; [intros [= _ <- <-]; eauto|].
  intros Hrun. right. exists restriction, adj. split; [done|]. revert Hrun.
  destruct (backend_groups a adj) as [e|groups]; [intros [= _ <- <-]; eauto|].
  destruct (label_column_of a c restriction groups) as [e|[key col]];
    [intros [= _ <- <-]; eauto|].
  case_decide; intros [= _ <- <-]; eauto 8.
Qed.

End Runs.

(** ** Errors that the validation does not name *)

Section MoreErrors.
Context `{Backends}.

Lemma guard_passes a :
  flavor a = "vtraag" \/ partition_type a = None ->
  bool_decide (flavor a <> "vtraag") && negb (is_None (partition_type a)) = false.
Proof. intros [-> | ->]; [done|]. cbn. apply andb_false_r. Qed.

Lemma backend_unknown_flavor a adj :
  ~ known_flavor (flavor a) ->
  backend_events a adj = [] /\ backend_groups a adj = inl (ValueError FlavorNeedsToBe).
Proof.
  intros Hf. unfold backend_events, backend_groups, known_flavor in *.
  rewrite !bool_decide_false by tauto. done.
Qed.

(** X1: a flavor other than ['vtraag'], ['igraph'] and ['taynaud'] never
    lets the call complete, and the container stays as it was; once the
    validation has passed, the exception is the [ValueError] of line 151
    and no backend has been called. *)
Theorem unknown_flavor_never_completes (a : args) (c : AnnData) :
  ~ known_flavor (flavor a) ->
  (exists ev e, louvain a c = (c, ev, inl e)) /\
  (forall restriction adj,
     validated a c = inr (restriction, adj) ->
     louvain a c = (c, [LogInfo MsgRunning], inl (ValueError FlavorNeedsToBe))).
Proof.
  intros Hf. rewrite louvain_is_outcome. unfold louvain_outcome.
  destruct (validated a c) as [e|[restriction adj]].
  - split; [eauto | done].
  - destruct (backend_unknown_flavor a adj Hf) as [-> ->].
    split; [eauto|]. by intros ? ? [= <- <-].
Qed.

(** X2: when the first category is a string and [adata.obs] has no column
    [restrict_key], the lookup of line 104 raises a [KeyError] for that
    key, once the first two guards are passed. *)
Theorem missing_restriction_column (a : args) (c : AnnData) key c0 rest adj :
  restrict_to a = Some (key, c0 :: rest) ->
  isinstance_str c0 = true ->
  obs c !! key = None ->
  flavor a = "vtraag" \/ partition_type a = None ->
  adjacency_source a c = inr adj ->
  louvain a c = (c, [LogInfo MsgRunning], inl (KeyError key)).
Proof.
  intros Hr Hc0 Hobs Hguard Hadj. rewrite louvain_is_outcome.
  unfold louvain_outcome, validated. rewrite guard_passes, Hadj by done.
  unfold restriction_of. by rewrite Hr, Hc0, Hobs.
Qed.

(** X3: with no [adjacency] argument and a [neighbors] entry that has no
    ['connectivities'], line 97 raises a [KeyError], once the partition-type
    guard is passed. *)
Theorem missing_connectivities (a : args) (c : AnnData) d :
  adjacency a = None ->
  uns c !! "neighbors" = Some d ->
  d !! "connectivities" = None ->
  flavor a = "vtraag" \/ partition_type a = None ->
  louvain a c = (c, [LogInfo MsgRunning], inl (KeyError "connectivities")).
Proof.
  intros Ha Hn Hd Hguard. rewrite louvain_is_outcome.
  unfold louvain_outcome, validated, adjacency_source.
  by rewrite guard_passes, Ha, Hn, Hd.
Qed.

(** X4: a call whose restriction names a category that is not a string,
    at any position, never completes: it raises, and the container stays as
    it was. *)
Theorem non_string_category_never_completes (a : args) (c : AnnData) key cs x :
  restrict_to a = Some (key, cs) ->
  x ∈ cs -> isinstance_str x = false ->
  exists ev e, louvain a c = (c, ev, inl e).
Proof.
  intros Hr Hx Hns. destruct (louvain a c) as [[c' ev] [e|out]] eqn:Hrun.
  - apply louvain_error_frame in Hrun as ->. eauto.
  - destruct (louvain_restricted_success _ _ _ _ _ _ _ Hr Hrun)
      as (_ & _ & _ & ss & _ & _ & _ & _ & Hcs & _).
    subst cs. apply list_elem_of_fmap in Hx as (s & -> & _). done.
Qed.

End MoreErrors.

Lemma unknown_flavor_never_completes_witness :
  (exists ev e, run_toy unknown_flavor toy_adata = (toy_adata, ev, inl e)) /\
  (forall restriction adj,
     validated unknown_flavor toy_adata = inr (restriction, adj) ->
     run_toy unknown_flavor toy_adata
     = (toy_adata, [LogInfo MsgRunning], inl (ValueError FlavorNeedsToBe))).
Proof.
  apply (@unknown_flavor_never_completes toy_backends unknown_flavor toy_adata).
  intros [Hf | [Hf | Hf]]; discriminate Hf.
Defined.

Lemma missing_restriction_column_witness :
  run_toy (restricted_to "batch" [PStr "A"]) toy_adata
  = (toy_adata, [LogInfo MsgRunning], inl (KeyError "batch")).
Proof.
  apply (@missing_restriction_column toy_backends _ toy_adata "batch" (PStr "A") []
           (ones 5)); [reflexivity | reflexivity | reflexivity | by left | reflexivity].
Defined.

Lemma missing_connectivities_witness :
  run_toy default_args no_connectivities_adata
  = (no_connectivities_adata, [LogInfo MsgRunning], inl (KeyError "connectivities")).
Proof.
  apply (@missing_connectivities toy_backends default_args no_connectivities_adata ∅);
    [reflexivity | reflexivity | reflexivity | by left].
Defined.

Lemma non_string_category_never_completes_witness :
  exists ev e,
    run_toy (restricted_to "batch" [PStr "A"; PInt 1]) mixed_adata = (mixed_adata, ev, inl e).
Proof.
  apply (@non_string_category_never_completes toy_backends _ mixed_adata "batch"
           [PStr "A"; PInt 1] (PInt 1)); [reflexivity | in_list | reflexivity].
Defined.

(** ** The dispatch *)

(** Membership in a list that is written out. *)
Ltac elem_cases H :=
  repeat (apply elem_of_cons in H as [H | H]; [try discriminate H|]);
  try (by apply elem_of_nil in H).

Section DispatchProperties.
Context `{Backends}.

Lemma louvain_event_in a c c' ev r e :
  louvain a c = (c', ev, r) -> e ∈ ev ->
  e = LogInfo MsgRunning \/
  (exists restriction adj,
     validated a c = inr (restriction, adj) /\ e ∈ backend_events a adj) \/
  e = LogInfo MsgFinished \/ exists n key, e = LogHint (MsgFound n key).
Proof.
  intros [[-> _] | (restriction & adj & Hval & [[-> _] | (n & key & out & -> & _)])]
    %louvain_events Hin.
  - apply list_elem_of_singleton in Hin. by left.
  - apply elem_of_cons in Hin as [-> | Hin]; [by left|]. right. left. eauto.
  - apply elem_of_cons in Hin as [-> | Hin]; [by left|].
    apply elem_of_app in Hin as [Hin | Hin]; [right; left; eauto|].
    elem_cases Hin; subst; eauto 6.
Qed.

Lemma directed_of_vtraag a : flavor a = "vtraag" -> directed_of a = directed a.
Proof. intros Hf. unfold directed_of. rewrite Hf. cbn. by rewrite andb_false_r. Qed.

Lemma directed_of_igraph a : flavor a = "igraph" -> directed_of a = false.
Proof. intros Hf. unfold directed_of. rewrite Hf. cbn. by destruct (directed a). Qed.

Lemma backend_events_vtraag a adj :
  flavor a = "vtraag" ->
  backend_events a adj
  = (if directed a then [] else [LogM MsgUndirected]) ++
    [LogInfo MsgUsingLouvainPackage; SetRngSeed (random_state a);
     FindPartition (graph_of a adj)
       (default RBConfigurationVertexPartition (partition_type a)) (kwargs_of a adj)].
Proof.
  intros Hf. unfold backend_events. rewrite (directed_of_vtraag a Hf), Hf.
  by rewrite bool_decide_true.
Qed.

(** The one call into a library that the dispatch makes. *)
Lemma backend_events_call a adj e :
  e ∈ backend_events a adj -> is_backend_call e = true ->
  (flavor a = "vtraag" /\
   e = FindPartition (graph_of a adj)
         (default RBConfigurationVertexPartition (partition_type a)) (kwargs_of a adj)) \/
  (flavor a = "igraph" /\ e = CommunityMultilevel (graph_of a adj) (weights_of a adj)) \/
  (flavor a = "taynaud" /\ e = BestPartition (NxGraph adj)).
Proof.
  unfold backend_events. intros Hin Hcall.
  case_bool_decide as Hv.
  { left. split; [done|]. destruct (directed_of a); cbn [app] in Hin;
      elem_cases Hin; subst; done. }
  case_bool_decide as Hi.
  { right. left. split; [done|].
    destruct (is_None (resolution a)), (directed_of a); cbn [app] in Hin;
      elem_cases Hin; subst; done. }
  case_bool_decide as Ht; [|by apply elem_of_nil in Hin].
  right. right. split; [done|]. elem_cases Hin. done.
Qed.

(** X5: the graph handed to a backend is built from the adjacency matrix
    left by the validation (sliced when a restriction is active).  With
    ['igraph'] it is always undirected, whatever [directed] says, and the
    weights are those of the graph exactly when [use_weights] is set; with
    ['vtraag'] it is directed as [directed] says. *)
Theorem backend_graph (a : args) (c c' : AnnData) ev r :
  louvain a c = (c', ev, r) ->
  (forall g w, CommunityMultilevel g w ∈ ev ->
     flavor a = "igraph" /\ ig_directed g = false /\
     w = (if use_weights a then Some (es_weight g) else None) /\
     exists restriction, validated a c = inr (restriction, ig_adjacency g)) /\
  (forall g pt kw, FindPartition g pt kw ∈ ev ->
     flavor a = "vtraag" /\ ig_directed g = directed a /\
     exists restriction, validated a c = inr (restriction, ig_adjacency g)).
Proof.
  intros Hrun. split.
  - intros g w Hin.
    destruct (louvain_event_in _ _ _ _ _ _ Hrun Hin)
      as [? | [(restriction & adj & Hval & Hbe) | [? | (? & ? & ?)]]]; try done.
    destruct (backend_events_call _ _ _ Hbe eq_refl)
      as [[_ ?] | [[Hf [= -> ->]] | [_ ?]]]; try done.
    split; [done|]. unfold weights_of, graph_of, get_igraph_from_adjacency.
    cbn [ig_directed ig_adjacency]. rewrite (directed_of_igraph a Hf). eauto.
  - intros g pt kw Hin.
    destruct (louvain_event_in _ _ _ _ _ _ Hrun Hin)
      as [? | [(restriction & adj & Hval & Hbe) | [? | (? & ? & ?)]]]; try done.
    destruct (backend_events_call _ _ _ Hbe eq_refl)
      as [[Hf [= -> _ _]] | [[_ ?] | [_ ?]]]; try done.
    split; [done|]. unfold graph_of, get_igraph_from_adjacency.
    cbn [ig_directed ig_adjacency]. rewrite (directed_of_vtraag a Hf). eauto.
Qed.

(** X6: what [louvain.find_partition] receives.  The partition type is the
    one asked for, [RBConfigurationVertexPartition] by default; a given
    [resolution] is passed as ['resolution_parameter'] and replaces an entry
    of that name in [partition_kwargs]; ['weights'] is set exactly when
    [use_weights] is; every other keyword argument is passed on unchanged;
    and the seed is set to [random_state] just before the call. *)
Theorem find_partition_arguments (a : args) (c c' : AnnData) ev r g pt kw :
  louvain a c = (c', ev, r) ->
  FindPartition g pt kw ∈ ev ->
  pt = default RBConfigurationVertexPartition (partition_type a) /\
  kw !! "resolution_parameter"
  = match resolution a with
    | Some q => Some (KwFloat q)
    | None => default ∅ (partition_kwargs a) !! "resolution_parameter"
    end /\
  kw !! "weights"
  = (if use_weights a then Some (KwArray (es_weight g))
     else default ∅ (partition_kwargs a) !! "weights") /\
  (forall k, k <> "resolution_parameter" -> k <> "weights" ->
             kw !! k = default ∅ (partition_kwargs a) !! k) /\
  exists pre post, ev = pre ++ SetRngSeed (random_state a) :: FindPartition g pt kw :: post.
Proof.
  intros Hrun Hin.
  destruct (louvain_event_in _ _ _ _ _ _ Hrun Hin)
    as [? | [(restriction & adj & Hval & Hbe) | [? | (? & ? & ?)]]]; try done.
  destruct (backend_events_call _ _ _ Hbe eq_refl)
    as [[Hf [= -> -> ->]] | [[_ ?] | [_ ?]]]; try done.
  split; [done|]. unfold kwargs_of, weights_of.
  split; [|split; [|split]].
  - destruct (use_weights a); [rewrite lookup_insert_ne by done|];
      destruct (resolution a); by rewrite ?lookup_insert_eq.
  - destruct (use_weights a); [by rewrite lookup_insert_eq|].
    destruct (resolution a); [by rewrite lookup_insert_ne|done].
  - intros k Hk1 Hk2.
    destruct (use_weights a); [rewrite lookup_insert_ne by done|];
      destruct (resolution a); by rewrite ?lookup_insert_ne.
  - apply louvain_events in Hrun
      as [[-> _] | (restriction' & adj' & Hval' & Hev)].
    { by apply list_elem_of_singleton in Hin. }
    rewrite Hval in Hval'. injection Hval' as <- <-.
    rewrite (backend_events_vtraag a adj Hf) in Hev.
    destruct Hev as [[-> _] | (n & key & out & -> & _)].
    + exists (LogInfo MsgRunning :: (if directed a then [] else [LogM MsgUndirected]) ++
              [LogInfo MsgUsingLouvainPackage]), [].
      by destruct (directed a).
    + exists (LogInfo MsgRunning :: (if directed a then [] else [LogM MsgUndirected]) ++
              [LogInfo MsgUsingLouvainPackage]),
             [LogInfo MsgFinished; LogHint (MsgFound n key)].
      by destruct (directed a).
Qed.

Lemma backend_calls_app ev1 ev2 :
  backend_calls (ev1 ++ ev2) = backend_calls ev1 + backend_calls ev2.
Proof. unfold backend_calls. by rewrite filter_app, length_app. Qed.

Lemma backend_calls_cons e ev :
  backend_calls (e :: ev) = (if is_backend_call e then 1 else 0) + backend_calls ev.
Proof.
  unfold backend_calls. rewrite filter_cons.
  destruct (is_backend_call e); by case_decide.
Qed.

Lemma backend_calls_nil : backend_calls [] = 0.
Proof. done. Qed.

Ltac count_calls :=
  repeat first [rewrite backend_calls_app | rewrite backend_calls_cons
               | rewrite backend_calls_nil];
  cbn [is_backend_call Nat.add].

Lemma backend_calls_events a adj :
  (known_flavor (flavor a) -> backend_calls (backend_events a adj) = 1) /\
  backend_calls (backend_events a adj) <= 1.
Proof.
  unfold backend_events, known_flavor.
  case_bool_decide as Hv.
  { destruct (directed_of a); count_calls; auto. }
  case_bool_decide as Hi.
  { destruct (is_None (resolution a)), (directed_of a); count_calls; auto. }
  case_bool_decide as Ht; count_calls; [auto|]. split; [tauto | lia].
Qed.

(** X7: a run calls a clustering library at most once; a call that
    completes has called one exactly once; a call that the validation stops
    has called none. *)
Theorem backend_called_once (a : args) (c c' : AnnData) ev r :
  louvain a c = (c', ev, r) ->
  backend_calls ev <= 1 /\
  (forall out, r = inr out -> backend_calls ev = 1) /\
  (forall e, validated a c = inl e -> backend_calls ev = 0).
Proof.
  intros Hrun.
  destruct (louvain_events _ _ _ _ _ Hrun)
    as [[-> (e & _ & ->)] | (restriction & adj & Hval & Hev)].
  { count_calls. split; [lia | done]. }
  split; [|split].
  - pose proof (proj2 (backend_calls_events a adj)).
    destruct Hev as [[-> _] | (n & key & out & -> & _)]; count_calls; lia.
  - intros out ->.
    apply louvain_success in Hrun
      as (restriction' & adj' & groups & key & col & Hval' & Hg & _ & _ & -> & _).
    rewrite Hval in Hval'. injection Hval' as <- <-.
    count_calls.
    rewrite (proj1 (backend_calls_events a adj)); [done|].
    destruct (decide (known_flavor (flavor a))) as [|Hf]; [done|].
    destruct (backend_unknown_flavor a adj Hf) as [_ Hbad]. congruence.
  - intros e He. congruence.
Qed.

(** X8: the only warning that a run logs is the one about [resolution],
    and only with [flavor='igraph'] and a resolution that is not [None]. *)
Theorem warning_only_for_igraph_resolution (a : args) (c c' : AnnData) ev r m :
  louvain a c = (c', ev, r) ->
  LogWarn m ∈ ev ->
  m = MsgResolutionNoEffect /\ flavor a = "igraph" /\ resolution a <> None.
Proof.
  intros Hrun Hin.
  destruct (louvain_event_in _ _ _ _ _ _ Hrun Hin)
    as [? | [(restriction & adj & Hval & Hbe) | [? | (? & ? & ?)]]]; try done.
  revert Hbe. unfold backend_events.
  case_bool_decide as Hv.
  { intros Hbe. destruct (directed_of a); cbn [app] in Hbe; elem_cases Hbe. }
  case_bool_decide as Hi.
  { intros Hbe. destruct (resolution a) as [q|]; cbn [is_None] in Hbe;
      destruct (directed_of a); cbn [app] in Hbe; elem_cases Hbe.
    all: injection Hbe as ->; done. }
  case_bool_decide; intros Hbe; elem_cases Hbe.
Qed.

End DispatchProperties.

Lemma run_eta {A B C} (x : A * B * C) : x = (fst (fst x), snd (fst x), snd x).
Proof. by destruct x as [[? ?] ?]. Qed.

Lemma backend_graph_witness :
  (forall g w,
     CommunityMultilevel g w ∈ snd (fst (run_toy igraph_args toy_adata)) ->
     flavor igraph_args = "igraph" /\ ig_directed g = false /\
     w = (if use_weights igraph_args then Some (@es_weight toy_backends g) else None) /\
     exists restriction, validated igraph_args toy_adata = inr (restriction, ig_adjacency g)) /\
  (forall g pt kw,
     FindPartition g pt kw ∈ snd (fst (run_toy igraph_args toy_adata)) ->
     flavor igraph_args = "vtraag" /\ ig_directed g = directed igraph_args /\
     exists restriction, validated igraph_args toy_adata = inr (restriction, ig_adjacency g)).
Proof.
  apply (@backend_graph toy_backends igraph_args toy_adata
           (fst (fst (run_toy igraph_args toy_adata)))
           (snd (fst (run_toy igraph_args toy_adata)))
           (snd (run_toy igraph_args toy_adata))).
  apply run_eta.
Defined.

Lemma find_partition_arguments_witness :
  let a := with_resolution (Some (1 # 2)) default_args in
  let g := get_igraph_from_adjacency (ones 5) true in
  let kw : gmap string kwarg := {[ "resolution_parameter" := KwFloat (1 # 2) ]} in
  RBConfigurationVertexPartition
  = default RBConfigurationVertexPartition (partition_type a) /\
  kw !! "resolution_parameter"
  = match resolution a with
    | Some q => Some (KwFloat q)
    | None => default ∅ (partition_kwargs a) !! "resolution_parameter"
    end /\
  kw !! "weights"
  = (if use_weights a then Some (KwArray (@es_weight toy_backends g))
     else default ∅ (partition_kwargs a) !! "weights") /\
  (forall k, k <> "resolution_parameter" -> k <> "weights" ->
             kw !! k = default ∅ (partition_kwargs a) !! k) /\
  exists pre post,
    snd (fst (run_toy a toy_adata))
    = pre ++ SetRngSeed (random_state a)
          :: FindPartition g RBConfigurationVertexPartition kw :: post.
Proof.
  intros a g kw.
  apply (@find_partition_arguments toy_backends a toy_adata
           (fst (fst (run_toy a toy_adata))) (snd (fst (run_toy a toy_adata)))
           (snd (run_toy a toy_adata)) g RBConfigurationVertexPartition kw).
  - apply run_eta.
  - vm_compute. in_list.
Defined.

Lemma backend_called_once_witness :
  backend_calls (snd (fst (run_toy default_args toy_adata))) <= 1 /\
  (forall out, snd (run_toy default_args toy_adata) = inr out ->
               backend_calls (snd (fst (run_toy default_args toy_adata))) = 1) /\
  (forall e, validated default_args toy_adata = inl e ->
             backend_calls (snd (fst (run_toy default_args toy_adata))) = 0).
Proof.
  apply (@backend_called_once toy_backends default_args toy_adata
           (fst (fst (run_toy default_args toy_adata)))).
  apply run_eta.
Defined.

Lemma warning_only_for_igraph_resolution_witness :
  let a := with_resolution (Some (1 # 2)) igraph_args in
  MsgResolutionNoEffect = MsgResolutionNoEffect /\
  flavor a = "igraph" /\ resolution a <> None.
Proof.
  intros a.
  apply (@warning_only_for_igraph_resolution toy_backends a toy_adata
           (fst (fst (run_toy a toy_adata))) (snd (fst (run_toy a toy_adata)))
           (snd (run_toy a toy_adata))).
  - apply run_eta.
  - vm_compute. in_list.
Defined.

(** ** What a call writes *)

Lemma annotated_fields a key col c :
  n_obs (annotated a key col c) = n_obs c /\
  obs (annotated a key col c) = <[key := col]> (obs c) /\
  uns (annotated a key col c)
  = <["louvain" := {[ "params" := UnsParams (resolution a) (random_state a) ]}]> (uns c).
Proof.
  unfold annotated, set_uns, set_obs. cbn [n_obs obs uns].
  split; [done|]. split; [done|]. by rewrite alter_insert_eq, insert_empty.
Qed.

Section Writes.
Context `{Backends}.

Lemma louvain_outcome_with_copy (b : bool) a c :
  louvain_outcome (with_copy b a) c
  = match louvain_outcome (with_copy false a) c with
    | (c1, ev, inl e) => (c, ev, inl e)
    | (c1, ev, inr _) => (if b then c else c1, ev, inr (if b then Some c1 else None))
    end.
Proof.
  unfold louvain_outcome.
  change (validated (with_copy b a) c) with (validated a c).
  change (validated (with_copy false a) c) with (validated a c).
  destruct (validated a c) as [e|[restriction adj]]; [done|].
  change (backend_groups (with_copy b a) adj) with (backend_groups a adj).
  change (backend_groups (with_copy false a) adj) with (backend_groups a adj).
  change (backend_events (with_copy b a) adj) with (backend_events a adj).
  change (backend_events (with_copy false a) adj) with (backend_events a adj).
  destruct (backend_groups a adj) as [e|groups]; [done|].
  change (label_column_of (with_copy b a) c restriction groups)
    with (label_column_of a c restriction groups).
  change (label_column_of (with_copy false a) c restriction groups)
    with (label_column_of a c restriction groups).
  destruct (label_column_of a c restriction groups) as [e|[key col]]; [done|].
  case_decide; [|done]. cbn [with_copy copy].
  change (annotated (with_copy b a) key col c) with (annotated a key col c).
  change (annotated (with_copy false a) key col c) with (annotated a key col c).
  by destruct b.
Qed.

Lemma success_frame_aux (a : args) (c c' : AnnData) ev out :
  louvain a c = (c', ev, inr out) ->
  n_obs (result_container c' out) = n_obs c /\
  (forall key, key <> output_key a ->
               obs (result_container c' out) !! key = obs c !! key).
Proof.
  intros (restriction & adj & groups & col & _ & _ & _ & _ & _ & -> & _)%louvain_success_key.
  destruct (annotated_fields a (output_key a) col c) as (-> & -> & _).
  split; [done|]. intros key Hkey. by rewrite lookup_insert_ne.
Qed.

(** X9: with [copy=True] the caller's container is never written to,
    whatever the outcome; the container that is returned is the one that
    the same call with [copy=False] leaves in place, the events are the
    same, and the exceptions are the same.  With [copy=False] nothing is
    returned. *)
Theorem copy_returns_in_place_result (a : args) (c : AnnData) :
  (forall c' ev r, louvain (with_copy true a) c = (c', ev, r) -> c' = c) /\
  (forall c1 ev out,
     louvain (with_copy false a) c = (c1, ev, inr out) ->
     out = None /\ louvain (with_copy true a) c = (c, ev, inr (Some c1))) /\
  (forall c1 ev e,
     louvain (with_copy false a) c = (c1, ev, inl e) ->
     louvain (with_copy true a) c = (c, ev, inl e)).
Proof.
  rewrite !louvain_is_outcome, (louvain_outcome_with_copy true).
  destruct (louvain_outcome (with_copy false a) c) as [[c1 ev] [e|out]] eqn:Hrun.
  - split; [by intros ? ? ? [= <- _ _]|]. split; [done|]. by intros ? ? ? [= _ <- <-].
  - split; [by intros ? ? ? [= <- _ _]|]. split; [|done].
    intros ? ? ? [= <- <- <-]. split; [|done].
    rewrite <-louvain_is_outcome in Hrun.
    by apply louvain_success_key in Hrun as (? & ? & ? & ? & _ & _ & _ & _ & _ & _ & _ & ->).
Qed.

(** X10: a call that completes writes one column of [adata.obs], under the
    output key, and one entry of [adata.uns], under ['louvain']: every other
    column, every other entry and the number of samples are as before. *)
Theorem success_writes_two_keys (a : args) (c c' : AnnData) ev out :
  louvain a c = (c', ev, inr out) ->
  n_obs (result_container c' out) = n_obs c /\
  (forall key, key <> output_key a ->
               obs (result_container c' out) !! key = obs c !! key) /\
  (forall key, key <> "louvain" ->
               uns (result_container c' out) !! key = uns c !! key).
Proof.
  intros (restriction & adj & groups & col & _ & _ & _ & _ & _ & -> & _)%louvain_success_key.
  destruct (annotated_fields a (output_key a) col c) as (-> & -> & ->).
  split; [done|]. split; intros key Hkey; by rewrite lookup_insert_ne.
Qed.

(** X11: after a call that completes, [adata.uns['louvain']] is exactly
    [{'params': {'resolution': resolution, 'random_state': random_state}}],
    whatever was stored there before. *)
Theorem params_record_replaced (a : args) (c c' : AnnData) ev out :
  louvain a c = (c', ev, inr out) ->
  uns (result_container c' out) !! "louvain"
  = Some {[ "params" := UnsParams (resolution a) (random_state a) ]}.
Proof.
  intros (restriction & adj & groups & col & _ & _ & _ & _ & _ & -> & _)%louvain_success_key.
  destruct (annotated_fields a (output_key a) col c) as (_ & _ & ->).
  apply lookup_insert_eq.
Qed.

(** X12: the column that a call writes has one label per sample and every
    label is one of its categories; so a container whose columns all fit
    still has only fitting columns after the call. *)
Theorem output_column_fits (a : args) (c c' : AnnData) ev out :
  louvain a c = (c', ev, inr out) ->
  (exists col, obs (result_container c' out) !! output_key a = Some col /\
               column_ok (n_obs c) col) /\
  (obs_ok c -> obs_ok (result_container c' out)).
Proof.
  intros Hrun.
  assert (exists col, obs (result_container c' out) !! output_key a = Some col /\
                      column_ok (n_obs c) col) as (col & Hcol & Hok).
  { destruct (louvain_success_key _ _ _ _ _ Hrun)
      as (restriction & adj & groups & col & _ & _ & _ & Hlen & _ & Hres & _).
    exists col. split; [rewrite Hres; apply obs_annotated|].
    split; [done|].
    assert (obs (result_container c' out) !! output_key a = Some col) as Hlook
      by (rewrite Hres; apply obs_annotated).
    destruct (restrict_to a) as [[key cs]|] eqn:Hr.
    - destruct (louvain_restricted_success _ _ _ _ _ _ _ Hr Hrun)
        as (_ & _ & _ & _ & labels & _ & _ & _ & _ & _ & _ & Hout).
      rewrite Hout in Hlook. injection Hlook as <-. cbn [cat_values cat_categories].
      apply Forall_fmap, Forall_forall. intros s Hs. cbn.
      apply list_elem_of_fmap_2. by rewrite natsorted_elem_of, pd_unique_elem_of.
    - destruct (louvain_unrestricted_success _ _ _ _ _ Hr Hrun)
        as (_ & groups' & _ & _ & Hout).
      rewrite Hout in Hlook. injection Hlook as <-. cbn [cat_values cat_categories].
      apply Forall_fmap, Forall_forall. intros s Hs. cbn.
      apply list_elem_of_fmap_2. rewrite natsorted_elem_of.
      apply list_elem_of_fmap in Hs as (g & -> & Hg).
      apply list_elem_of_fmap_2. by rewrite np_unique_elem_of. }
  split; [eauto|].
  intros Hobs key col' Hkey.
  destruct (success_frame_aux a c c' ev out Hrun) as (Hn & Hother).
  rewrite Hn. destruct (decide (key = output_key a)) as [-> | Hne].
  - rewrite Hcol in Hkey. by injection Hkey as <-.
  - rewrite Hother in Hkey by done. by apply (Hobs key).
Qed.

End Writes.

Lemma copy_returns_in_place_result_witness :
  let r := run_toy (with_copy false default_args) toy_adata in
  @None AnnData = None /\
  run_toy (with_copy true default_args) toy_adata
  = (toy_adata, snd (fst r), inr (Some (fst (fst r)))).
Proof.
  intros r.
  destruct (@copy_returns_in_place_result toy_backends default_args toy_adata)
    as (_ & Hdone & _).
  apply (Hdone (fst (fst r)) (snd (fst r)) None). vm_compute; reflexivity.
Defined.

Lemma success_writes_two_keys_witness :
  let a := restricted_to "cell_type" [PStr "A"; PStr "B"] in
  let r := run_toy a toy_adata in
  n_obs (result_container (fst (fst r)) None) = n_obs toy_adata /\
  (forall key, key <> output_key a ->
               obs (result_container (fst (fst r)) None) !! key = obs toy_adata !! key) /\
  (forall key, key <> "louvain" ->
               uns (result_container (fst (fst r)) None) !! key = uns toy_adata !! key).
Proof.
  intros a r.
  apply (@success_writes_two_keys toy_backends a toy_adata (fst (fst r)) (snd (fst r)) None).
  vm_compute; reflexivity.
Defined.

Lemma params_record_replaced_witness :
  let a := with_resolution (Some (1 # 2)) igraph_args in
  let r := run_toy a toy_adata in
  uns (result_container (fst (fst r)) None) !! "louvain"
  = Some {[ "params" := UnsParams (resolution a) (random_state a) ]}.
Proof.
  intros a r.
  apply (@params_record_replaced toy_backends a toy_adata (fst (fst r)) (snd (fst r)) None).
  vm_compute; reflexivity.
Defined.

Lemma output_column_fits_witness :
  let a := restricted_to "cell_type" [PStr "A"; PStr "B"] in
  let r := run_toy a toy_adata in
  (exists col, obs (result_container (fst (fst r)) None) !! output_key a = Some col /\
               column_ok (n_obs toy_adata) col) /\
  (obs_ok toy_adata -> obs_ok (result_container (fst (fst r)) None)).
Proof.
  intros a r.
  apply (@output_column_fits toy_backends a toy_adata (fst (fst r)) (snd (fst r)) None).
  vm_compute; reflexivity.
Defined.

(** ** Labels and cluster ids *)

Lemma iloc_assign_all mask old new :
  Forall (fun b => b = true) mask -> length mask = length old ->
  length new = length old -> iloc_assign mask old new = new.
Proof.
  revert old new. induction mask as [|b mask IH]; intros [|x old] [|y new]; try done.
  intros [-> Hmask]%Forall_cons [= Hlen] [= Hnew]. cbn [iloc_assign].
  f_equal. by apply IH.
Qed.

Lemma count_true_all mask : Forall (fun b => b = true) mask -> count_true mask = length mask.
Proof.
  induction 1 as [|b mask -> _ IH]; [done|]. cbn [count_true length]. by rewrite IH.
Qed.

Lemma n_distinct_fmap_inj `{Countable A, Countable B} (f : A -> B) `{!Inj (=) (=) f}
    (l : list A) :
  n_distinct (f <$> l) = n_distinct l.
Proof.
  rewrite (n_distinct_NoDup l (remove_dups l) (NoDup_remove_dups l)
             (fun x => elem_of_remove_dups l x)).
  rewrite <-(length_fmap f (remove_dups l)). apply n_distinct_NoDup.
  - apply NoDup_fmap_2; [done | apply NoDup_remove_dups].
  - intros y. rewrite !list_elem_of_fmap. by setoid_rewrite elem_of_remove_dups.
Qed.

Section LabelsAndIds.
Context `{Backends}.

(** X13: without restriction the backend must return one id per sample;
    sample [i] gets the decimal string of its id, so two samples carry the
    same label exactly when the backend put them in the same cluster. *)
Theorem unrestricted_labels_follow_membership (a : args) (c c' : AnnData) ev out :
  restrict_to a = None ->
  louvain a c = (c', ev, inr out) ->
  exists adj groups labels,
    validated a c = inr (None, adj) /\
    backend_groups a adj = inr groups /\
    labels_of (result_container c' out) (output_key a) = Some labels /\
    length groups = n_obs c /\
    (forall i g, groups !! i = Some g -> labels !! i = Some (PStr (pretty g))) /\
    (forall i j gi gj, groups !! i = Some gi -> groups !! j = Some gj ->
                       (labels !! i = labels !! j <-> gi = gj)).
Proof.
  intros Hr Hrun.
  destruct (louvain_unrestricted_success _ _ _ _ _ Hr Hrun)
    as (adj & groups & Hval & Hg & Hout).
  destruct (louvain_success_key _ _ _ _ _ Hrun)
    as (restriction & adj' & groups' & col & _ & _ & _ & Hlen & _ & Hres & _).
  assert (col = {| cat_values := map PStr (map pretty groups);
                   cat_categories := map PStr (natsorted (map pretty (np_unique groups))) |})
    as ->.
  { rewrite Hres, obs_annotated in Hout. by injection Hout. }
  cbn [cat_values] in Hlen. rewrite !length_map in Hlen.
  exists adj, groups, (map PStr (map pretty groups)).
  split; [done|]. split; [done|]. split; [unfold labels_of; by rewrite Hout|].
  split; [done|].
  assert (forall i g, groups !! i = Some g ->
                      map PStr (map pretty groups) !! i = Some (PStr (pretty g))) as Hlab.
  { intros i g Hi. by rewrite !list_lookup_fmap, Hi. }
  split; [done|]. intros i j gi gj Hi Hj.
  rewrite (Hlab i gi Hi), (Hlab j gj Hj). split.
  - intros [= Heq]. by apply (inj pretty).
  - by intros ->.
Qed.

(** X14: with a restriction, two samples of the restricted categories
    carry the same label exactly when the backend put them in the same
    cluster. *)
Theorem restricted_labels_follow_membership (a : args) (c c' : AnnData)
    ev out key cs :
  restrict_to a = Some (key, cs) ->
  louvain a c = (c', ev, inr out) ->
  exists col adj groups labels,
    obs c !! key = Some col /\
    validated a c = inr (Some (key, cs, isin (cat_values col) cs), adj) /\
    backend_groups a adj = inr groups /\
    labels_of (result_container c' out) (output_key a) = Some labels /\
    length groups = count_true (isin (cat_values col) cs) /\
    forall i j vi vj,
      cat_values col !! i = Some vi -> vi ∈ cs ->
      cat_values col !! j = Some vj -> vj ∈ cs ->
      exists gi gj,
        groups !! rank_in (isin (cat_values col) cs) i = Some gi /\
        groups !! rank_in (isin (cat_values col) cs) j = Some gj /\
        (labels !! i = labels !! j <-> gi = gj).
Proof.
  intros Hr Hrun.
  destruct (louvain_restricted_success _ _ _ _ _ _ _ Hr Hrun)
    as (col & adj & groups & ss & labels & Hobs & Hval & Hg & Hcs & Hlen & Hlab & Hout).
  exists col, adj, groups, (map PStr labels).
  split; [done|]. split; [done|]. split; [done|].
  split; [unfold labels_of; by rewrite Hout|]. split; [done|].
  assert (forall i v, cat_values col !! i = Some v -> v ∈ cs ->
            exists g, groups !! rank_in (isin (cat_values col) cs) i = Some g /\
                      labels !! i = Some ((String.concat "-" ss +:+ ",") +:+ pretty g))
    as Hone.
  { intros i v Hv Hin.
    destruct (iloc_assign_inside (isin (cat_values col) cs)
                (map astype_U (cat_values col))
                (map (fun g => (String.concat "-" ss +:+ ",") +:+ g) (map pretty groups)) i)
      as (y & Hy & Hlabel).
    - by rewrite length_isin, length_map.
    - by rewrite !length_map.
    - rewrite (isin_lookup _ _ _ v) by done. by rewrite bool_decide_true.
    - rewrite !list_lookup_fmap in Hy. unfold rank_in.
      destruct (groups !! _) as [g|] eqn:Hgi; [|done]. injection Hy as <-.
      exists g. split; [done|]. by rewrite Hlab. }
  intros i j vi vj Hvi Hini Hvj Hinj.
  destruct (Hone i vi Hvi Hini) as (gi & Hgi & Hli).
  destruct (Hone j vj Hvj Hinj) as (gj & Hgj & Hlj).
  exists gi, gj. split; [done|]. split; [done|].
  rewrite !list_lookup_fmap, Hli, Hlj. cbn. split.
  - intros [= Heq]. by apply (inj (fun g : Z => (String.concat "-" ss +:+ ",") +:+ pretty g)).
  - by intros ->.
Qed.

(** X15: when every sample is of the restricted categories, the output
    column has exactly as many categories as the backend's membership
    vector has distinct ids. *)
Theorem full_restriction_category_count (a : args) (c c' : AnnData) ev out key cs :
  restrict_to a = Some (key, cs) ->
  louvain a c = (c', ev, inr out) ->
  (forall col, obs c !! key = Some col -> Forall (fun v => v ∈ cs) (cat_values col)) ->
  exists restriction adj groups cats,
    validated a c = inr (restriction, adj) /\
    backend_groups a adj = inr groups /\
    categories_of (result_container c' out) (output_key a) = Some cats /\
    length cats = n_distinct groups.
Proof.
  intros Hr Hrun Hall.
  destruct (louvain_restricted_success _ _ _ _ _ _ _ Hr Hrun)
    as (col & adj & groups & ss & labels & Hobs & Hval & Hg & Hcs & Hlen & Hlab & Hout).
  specialize (Hall col Hobs).
  assert (Forall (fun b => b = true) (isin (cat_values col) cs)) as Hmask.
  { unfold isin. apply Forall_fmap. eapply Forall_impl; [exact Hall|].
    intros v Hv. cbn. by apply bool_decide_eq_true. }
  rewrite count_true_all, length_isin in Hlen by done.
  rewrite iloc_assign_all in Hlab
    by (done || by rewrite ?length_isin, !length_map).
  exists (Some (key, cs, isin (cat_values col) cs)), adj, groups. eexists.
  split; [done|]. split; [done|].
  split; [unfold categories_of; by rewrite Hout|]. cbn [cat_categories].
  rewrite length_map, length_natsorted, n_distinct_pd_unique, Hlab.
  rewrite <-list_fmap_compose.
  apply (n_distinct_fmap_inj (fun g : Z => (String.concat "-" ss +:+ ",") +:+ pretty g)).
Qed.

(** X16: a call that completes logs, after the events of the dispatch, the
    line [finished] and then the hint with the number of distinct ids that
    the backend returned and the key of the output column. *)
Theorem closing_log_lines (a : args) (c c' : AnnData) ev out :
  louvain a c = (c', ev, inr out) ->
  exists restriction adj groups,
    validated a c = inr (restriction, adj) /\
    backend_groups a adj = inr groups /\
    ev = LogInfo MsgRunning :: backend_events a adj ++
           [LogInfo MsgFinished; LogHint (MsgFound (n_distinct groups) (output_key a))].
Proof.
  intros (restriction & adj & groups & col & Hval & Hg & _ & _ & -> & _)%louvain_success_key.
  exists restriction, adj, groups. by rewrite n_distinct_np_unique.
Qed.

End LabelsAndIds.

Lemma unrestricted_labels_follow_membership_witness :
  let r := run_toy default_args toy_adata in
  exists adj groups labels,
    validated default_args toy_adata = inr (None, adj) /\
    @backend_groups toy_backends default_args adj = inr groups /\
    labels_of (result_container (fst (fst r)) None) (output_key default_args)
    = Some labels /\
    length groups = n_obs toy_adata /\
    (forall i g, groups !! i = Some g -> labels !! i = Some (PStr (pretty g))) /\
    (forall i j gi gj, groups !! i = Some gi -> groups !! j = Some gj ->
                       (labels !! i = labels !! j <-> gi = gj)).
Proof.
  intros r.
  apply (@unrestricted_labels_follow_membership toy_backends default_args toy_adata
           (fst (fst r)) (snd (fst r)) None); [reflexivity | vm_compute; reflexivity].
Defined.

Lemma restricted_labels_follow_membership_witness :
  let cs := [PStr "A"; PStr "B"] in
  let a := restricted_to "cell_type" cs in
  let r := run_toy a toy_adata in
  exists col adj groups labels,
    obs toy_adata !! "cell_type" = Some col /\
    validated a toy_adata = inr (Some ("cell_type", cs, isin (cat_values col) cs), adj) /\
    @backend_groups toy_backends a adj = inr groups /\
    labels_of (result_container (fst (fst r)) None) (output_key a) = Some labels /\
    length groups = count_true (isin (cat_values col) cs) /\
    forall i j vi vj,
      cat_values col !! i = Some vi -> vi ∈ cs ->
      cat_values col !! j = Some vj -> vj ∈ cs ->
      exists gi gj,
        groups !! rank_in (isin (cat_values col) cs) i = Some gi /\
        groups !! rank_in (isin (cat_values col) cs) j = Some gj /\
        (labels !! i = labels !! j <-> gi = gj).
Proof.
  intros cs a r.
  apply (@restricted_labels_follow_membership toy_backends a toy_adata
           (fst (fst r)) (snd (fst r)) None "cell_type" cs);
    [reflexivity | vm_compute; reflexivity].
Defined.

Lemma full_restriction_category_count_witness :
  let cs := [PStr "A"; PStr "B"; PStr "C"] in
  let a := restricted_to "cell_type" cs in
  let r := run_toy a toy_adata in
  exists restriction adj groups cats,
    validated a toy_adata = inr (restriction, adj) /\
    @backend_groups toy_backends a adj = inr groups /\
    categories_of (result_container (fst (fst r)) None) (output_key a) = Some cats /\
    length cats = n_distinct groups.
Proof.
  intros cs a r.
  apply (@full_restriction_category_count toy_backends a toy_adata
           (fst (fst r)) (snd (fst r)) None "cell_type" cs);
    [reflexivity | vm_compute; reflexivity |].
  intros col. unfold toy_adata. cbn [obs]. rewrite lookup_singleton_eq.
  intros [= <-]. cbn [cell_type cat_values]. repeat constructor; in_list.
Defined.

Lemma closing_log_lines_witness :
  let a := restricted_to "cell_type" [PStr "A"; PStr "B"] in
  let r := run_toy a toy_adata in
  exists restriction adj groups,
    validated a toy_adata = inr (restriction, adj) /\
    @backend_groups toy_backends a adj = inr groups /\
    snd (fst r)
    = LogInfo MsgRunning :: @backend_events toy_backends a adj ++
        [LogInfo MsgFinished; LogHint (MsgFound (n_distinct groups) (output_key a))].
Proof.
  intros a r.
  apply (@closing_log_lines toy_backends a toy_adata (fst (fst r)) (snd (fst r)) None).
  vm_compute; reflexivity.
Defined.

(** ** A second run, the legacy array, the sliced matrix *)

Lemma annotated_idem a key col c :
  annotated a key col (annotated a key col c) = annotated a key col c.
Proof.
  unfold annotated, set_uns, set_obs. cbn [n_obs obs uns]. f_equal.
  - apply insert_insert_eq.
  - by rewrite !alter_insert_eq, insert_insert_eq.
Qed.

Lemma foldl_setitem_error l e :
  foldl (fun acc kv =>
           match acc with
           | inr groups => setitem_int groups (fst kv) (snd kv)
           | inl e => inl e
           end) (inl e) l = inl e.
Proof. by induction l. Qed.

Lemma foldl_setitem_ok (l : list (nat * Z)) (init : list Z) :
  NoDup l.*1 ->
  (forall k v, (k, v) ∈ l -> k < length init) ->
  exists groups,
    foldl (fun acc kv =>
             match acc with
             | inr groups => setitem_int groups (fst kv) (snd kv)
             | inl e => inl e
             end) (inr init) l = inr groups /\
    length groups = length init /\
    (forall k v, (k, v) ∈ l -> groups !! k = Some v) /\
    (forall k, k ∉ l.*1 -> groups !! k = init !! k).
Proof.
  revert init. induction l as [|[k v] l IH]; intros init Hnd Hlt.
  { exists init. split; [done|]. split; [done|]. split; [|done].
    intros k v Hin. by apply elem_of_nil in Hin. }
  apply NoDup_cons in Hnd as [Hk Hnd]. cbn [foldl fst snd].
  assert (k < length init) as Hklt by (apply (Hlt k v), list_elem_of_here).
  unfold setitem_int at 2. rewrite decide_True by done.
  destruct (IH (<[k := v]> init) Hnd) as (groups & Hfold & Hlen & Hin & Hout).
  { intros k' v' Hin. rewrite length_insert. apply (Hlt k' v').
    by apply list_elem_of_further. }
  exists groups. split; [done|]. rewrite length_insert in Hlen. split; [done|]. split.
  - intros k' v' [[= -> ->] | Hin']%elem_of_cons; [|by apply Hin].
    rewrite Hout by done. by apply list_lookup_insert_eq.
  - intros k' Hk'. cbn [fmap list_fmap fst] in Hk'.
    apply not_elem_of_cons in Hk' as [Hne Hk'].
    rewrite Hout by done. by apply list_lookup_insert_ne.
Qed.

Lemma foldl_setitem_out_of_range (l : list (nat * Z)) (init : list Z) :
  (exists k v, (k, v) ∈ l /\ length init <= k) ->
  foldl (fun acc kv =>
           match acc with
           | inr groups => setitem_int groups (fst kv) (snd kv)
           | inl e => inl e
           end) (inr init) l = inl IndexError.
Proof.
  revert init. induction l as [|[k0 v0] l IH]; intros init (k & v & Hin & Hge).
  { by apply elem_of_nil in Hin. }
  cbn [foldl fst snd]. unfold setitem_int at 2.
  case_decide as Hk0; [|apply foldl_setitem_error].
  apply IH. exists k, v. rewrite length_insert.
  apply elem_of_cons in Hin as [[= -> ->] | Hin]; [lia | done].
Qed.

(** X18: the array built from the dict of [community.best_partition]
    (lines 148-149).  When every node of the dict is below the number of its
    entries, the array has one cell per entry and cell [k] holds the
    community of node [k]; when some node is not, the assignment
    [groups[k] = v] raises an [IndexError]. *)
Theorem densify_array (partition : gmap nat Z) :
  ((forall k v, partition !! k = Some v -> k < size partition) ->
   exists groups,
     densify partition = inr groups /\
     length groups = size partition /\
     forall k v, partition !! k = Some v -> groups !! k = Some v) /\
  ((exists k v, partition !! k = Some v /\ size partition <= k) ->
   densify partition = inl IndexError).
Proof.
  unfold densify. split.
  - intros Hlt.
    destruct (foldl_setitem_ok (map_to_list partition) (replicate (size partition) 0%Z))
      as (groups & Hfold & Hlen & Hin & _).
    + apply NoDup_fst_map_to_list.
    + intros k v Hkv%elem_of_map_to_list. rewrite length_replicate. eauto.
    + exists groups. split; [done|]. rewrite length_replicate in Hlen. split; [done|].
      intros k v Hkv. by apply Hin, elem_of_map_to_list.
  - intros (k & v & Hkv & Hge). apply foldl_setitem_out_of_range.
    exists k, v. rewrite length_replicate. split; [|done].
    by apply elem_of_map_to_list.
Qed.


Section SecondRun.
Context `{Backends}.

(** X17: a second run in place.  When the output column is not the
    restriction column, running the same call again on the container that a
    completed in-place call has left gives the same events, raises nothing
    and leaves the container as it is. *)
Theorem rerun_in_place_is_stable (a : args) (c c1 : AnnData) ev out :
  copy a = false ->
  (forall key cs, restrict_to a = Some (key, cs) -> output_key a <> key) ->
  louvain a c = (c1, ev, inr out) ->
  louvain a c1 = (c1, ev, inr out).
Proof.
  intros Hcopy Hkey Hrun.
  destruct (louvain_success_key _ _ _ _ _ Hrun)
    as (restriction & adj & groups & col & Hval & Hg & Hcol & Hlen & Hev & _ & Hc1 & Hout).
  rewrite Hcopy in Hc1, Hout. subst c1 out.
  destruct (annotated_fields a (output_key a) col c) as (Hn & Hobs & Huns).
  pose proof (validated_restriction _ _ _ _ Hval) as Hrestr.
  assert (forall key cs, restrict_to a = Some (key, cs) ->
            obs (annotated a (output_key a) col c) !! key = obs c !! key) as Hsame.
  { intros key cs Hr. rewrite Hobs. apply lookup_insert_ne. by apply (Hkey key cs). }
  assert (validated a (annotated a (output_key a) col c) = validated a c) as Hval'.
  { unfold validated, adjacency_source, restriction_of.
    rewrite Huns, lookup_insert_ne by done.
    destruct (restrict_to a) as [[key cs]|] eqn:Hr; [|done].
    by rewrite (Hsame key cs). }
  assert (label_column_of a (annotated a (output_key a) col c) restriction groups
          = label_column_of a c restriction groups) as Hcol'.
  { unfold label_column_of. destruct (restrict_to a) as [[key cs]|] eqn:Hr.
    - destruct Hrestr as (col0 & _ & ->). by rewrite (Hsame key cs).
    - by subst restriction. }
  rewrite louvain_is_outcome. unfold louvain_outcome.
  rewrite Hval', Hval, Hg, Hcol', Hcol, Hn, Hcopy.
  rewrite decide_True by done. by rewrite annotated_idem, Hev.
Qed.


End SecondRun.

Lemma rerun_in_place_is_stable_witness :
  let a := restricted_to "cell_type" [PStr "A"; PStr "B"] in
  let r := run_toy a toy_adata in
  run_toy a (fst (fst r)) = (fst (fst r), snd (fst r), inr None).
Proof.
  intros a r.
  apply (@rerun_in_place_is_stable toy_backends a toy_adata (fst (fst r)) (snd (fst r)) None).
  - reflexivity.
  - intros key cs [= <- _]. discriminate.
  - vm_compute; reflexivity.
Defined.

Lemma densify_array_witness :
  (exists groups,
     densify {[ 0 := 5%Z; 1 := 7%Z ]} = inr groups /\
     length groups = size ({[ 0 := 5%Z; 1 := 7%Z ]} : gmap nat Z) /\
     forall k v, ({[ 0 := 5%Z; 1 := 7%Z ]} : gmap nat Z) !! k = Some v ->
                 groups !! k = Some v) /\
  densify {[ 5 := 1%Z ]} = inl IndexError.
Proof.
  split.
  - apply (densify_array {[ 0 := 5%Z; 1 := 7%Z ]}).
    intros k v [[<- _] | [_ [<- _]%lookup_singleton_Some]]%lookup_insert_Some;
      vm_compute; lia.
  - apply (densify_array {[ 5 := 1%Z ]}). exists 5, 1%Z.
    split; [apply lookup_singleton_eq | vm_compute; lia].
Defined.


Section OwnColumn.
Context `{Backends}.

(** X20: a restricted call that writes into the restriction column itself
    ([key_added] is the restriction key).  A sample outside the restricted
    categories whose label is a string has, after the call, the label it had
    before. *)
Theorem own_column_keeps_other_labels (a : args) (c c' : AnnData) ev out key cs :
  restrict_to a = Some (key, cs) ->
  key_added a = Some key ->
  louvain a c = (c', ev, inr out) ->
  exists before after,
    labels_of c key = Some before /\
    labels_of (result_container c' out) key = Some after /\
    length after = length before /\
    forall i s, before !! i = Some (PStr s) -> PStr s ∉ cs ->
                after !! i = Some (PStr s).
Proof.
  intros Hr Hk Hrun.
  destruct (louvain_restricted_success _ _ _ _ _ _ _ Hr Hrun)
    as (col & adj & groups & ss & labels & Hobs & _ & _ & _ & _ & -> & Hout).
  assert (output_key a = key) as Hkey by (unfold output_key; by rewrite Hr, Hk).
  rewrite Hkey in Hout.
  exists (cat_values col). eexists.
  split; [unfold labels_of; by rewrite Hobs|].
  split; [unfold labels_of; by rewrite Hout|]. cbn [cat_values].
  split; [by rewrite !length_map, length_iloc_assign, length_map|].
  intros i s Hi Hnot.
  rewrite list_lookup_fmap, iloc_assign_outside.
  - by rewrite list_lookup_fmap, Hi.
  - rewrite (isin_lookup _ _ _ (PStr s)) by done. by rewrite bool_decide_false.
Qed.

End OwnColumn.

Lemma own_column_keeps_other_labels_witness :
  let cs := [PStr "A"; PStr "B"] in
  let a := with_key_added (Some "cell_type") (restricted_to "cell_type" cs) in
  let r := run_toy a toy_adata in
  exists before after,
    labels_of toy_adata "cell_type" = Some before /\
    labels_of (result_container (fst (fst r)) None) "cell_type" = Some after /\
    length after = length before /\
    forall i s, before !! i = Some (PStr s) -> PStr s ∉ cs ->
                after !! i = Some (PStr s).
Proof.
  intros cs a r.
  apply (@own_column_keeps_other_labels toy_backends a toy_adata
           (fst (fst r)) (snd (fst r)) None "cell_type" cs);
    [reflexivity | reflexivity | vm_compute; reflexivity].
Defined.
